(** * ColorSequenceGame: a shallow embedding of the Arduino sketch

    The sketch [ColorSequenceGame.ino] is a Simon-says memory game: four
    buttons, four LEDs, one global [GameState].  Both versions of the sketch
    (0.1 and 1.0) have the same functions; 1.0 renames [hasLost] to
    [has_lost] and the button state globals to snake case, and seeds the
    generator in [setup].  The names below are those of version 1.0; the
    values the generator returns are a parameter of the model, so that every
    seed is covered.

    The sketch is modelled by explicit state passing.  The machine state
    holds the globals of the sketch and the outside world: the levels that
    successive [digitalRead] calls will observe, the draws of the random
    generator, and the log of [digitalWrite] and [delay] calls. *)

From Stdlib Require Import ZArith NArith Bool Lia.
From stdpp Require Import base tactics list.

Local Open Scope Z_scope.

(** ** Pins and enumerations *)

Definition RED_BUTTON : Z := 2.
Definition RED_LED : Z := 3.
Definition BLUE_BUTTON : Z := 4.
Definition BLUE_LED : Z := 5.
Definition GREEN_BUTTON : Z := 6.
Definition GREEN_LED : Z := 7.
Definition YELLOW_BUTTON : Z := 8.
Definition YELLOW_LED : Z := 9.

(** [typedef enum : uint8_t { NO_COLOR, RED, BLUE, GREEN, YELLOW } Color;] *)
Inductive Color : Set := NO_COLOR | RED | BLUE | GREEN | YELLOW.

(** The enumerators' values. *)
Definition Color_to_Z (c : Color) : Z :=
  match c with
  | NO_COLOR => 0
  | RED => 1
  | BLUE => 2
  | GREEN => 3
  | YELLOW => 4
  end.

(** The cast [(Color) v].  The only cast of the sketch is applied to
    [random(RED, YELLOW + 1)]; a value that is no enumerator is sent to
    [NO_COLOR], the one colour the game must never store. *)
Definition Color_of_Z (v : Z) : Color :=
  if v =? 1 then RED
  else if v =? 2 then BLUE
  else if v =? 3 then GREEN
  else if v =? 4 then YELLOW
  else NO_COLOR.

(** [c1 == c2] on the underlying values. *)
Definition Color_eqb (c1 c2 : Color) : bool := Color_to_Z c1 =? Color_to_Z c2.

Definition playable (c : Color) : Prop := c <> NO_COLOR.

Definition uint8 (x : Z) : Z := x mod 256.

(** Capacity of [Color sequence[25]]. *)
Definition SEQUENCE_CAPACITY : Z := 25.

(** ** The Arduino core, as far as the sketch uses it *)

Module Arduino.

(** [Arduino.h]: [#define HIGH 0x1], [#define LOW 0x0]. *)
Definition HIGH : Z := 1.
Definition LOW : Z := 0.

(** The levels of the four button lines at one instant. *)
Record Lines : Set := mkLines {
  red_line : bool;
  blue_line : bool;
  green_line : bool;
  yellow_line : bool
}.

Definition level (b : bool) : Z := if b then HIGH else LOW.

(** What [digitalRead(pin)] sees on the lines [l].  Only button pins are
    ever read by the sketch; any other pin reads [LOW]. *)
Definition line_level (l : Lines) (pin : Z) : Z :=
  if pin =? RED_BUTTON then level (red_line l)
  else if pin =? BLUE_BUTTON then level (blue_line l)
  else if pin =? GREEN_BUTTON then level (green_line l)
  else if pin =? YELLOW_BUTTON then level (yellow_line l)
  else LOW.

(** Observable actions. *)
Inductive Event : Set :=
| EvWrite (pin level : Z)
| EvDelay (ms : Z).

(** The outside world.  [pin_tape] lists the line levels at the instants
    of the [digitalRead] calls still to come; [rng n] is the [n]-th value
    returned by the C library's [random()], a number between 0 and
    [RANDOM_MAX]; [trace] is the log of actions, oldest first. *)
Record World : Type := mkWorld {
  pin_tape : list Lines;
  rng : nat -> N;
  rng_calls : nat;
  trace : list Event
}.

(** [WMath.cpp]:
    [long random(long howbig)
       { if (howbig == 0) return 0; return random() % howbig; }] *)
Definition random_max (raw : N) (howbig : Z) : Z :=
  if howbig =? 0 then 0 else Z.rem (Z.of_N raw) howbig.

(** [long random(long howsmall, long howbig)
       { if (howsmall >= howbig) return howsmall;
         long diff = howbig - howsmall;
         return random(diff) + howsmall; }] *)
Definition random_range (raw : N) (howsmall howbig : Z) : Z :=
  if howsmall >=? howbig then howsmall
  else random_max raw (howbig - howsmall) + howsmall.

End Arduino.
Import Arduino.

(** ** Globals of the sketch *)

(** [struct GameState { bool has_lost; Color sequence[25]; uint8_t index; }] *)
Record GameState : Set := mkGameState {
  has_lost : bool;
  sequence : list Color;
  index : Z
}.

(** [static volatile uint8_t red_button_state = LOW;] and the like. *)
Record ButtonStates : Set := mkButtonStates {
  red_button_state : Z;
  blue_button_state : Z;
  green_button_state : Z;
  yellow_button_state : Z
}.

Record State : Type := mkState {
  g_GameState : GameState;
  buttons : ButtonStates;
  world : World
}.

(** [g_GameState = { .has_lost = false, .sequence = { NO_COLOR }, .index = 0 }] *)
Definition initial_GameState : GameState :=
  mkGameState false (replicate 25 NO_COLOR) 0.

Definition initial_ButtonStates : ButtonStates := mkButtonStates LOW LOW LOW LOW.

(** The machine at power-on, in front of a given world. *)
Definition initial_State (tape : list Lines) (r : nat -> N) : State :=
  mkState initial_GameState initial_ButtonStates (mkWorld tape r 0 []).

(** ** Pure helpers of the sketch *)

(** The selection made by [getButtonPressed] from the four state globals. *)
Definition getButtonPressed_of (b : ButtonStates) : Z :=
  if red_button_state b =? HIGH then RED_BUTTON
  else if blue_button_state b =? HIGH then BLUE_BUTTON
  else if green_button_state b =? HIGH then GREEN_BUTTON
  else if yellow_button_state b =? HIGH then YELLOW_BUTTON
  else 0.

Definition colorToLED (color : Color) : Z :=
  match color with
  | RED => RED_LED
  | BLUE => BLUE_LED
  | GREEN => GREEN_LED
  | YELLOW => YELLOW_LED
  | NO_COLOR => 0
  end.

Definition buttonToLED (btn_pin : Z) : Z :=
  if btn_pin =? RED_BUTTON then RED_LED
  else if btn_pin =? BLUE_BUTTON then BLUE_LED
  else if btn_pin =? GREEN_BUTTON then GREEN_LED
  else if btn_pin =? YELLOW_BUTTON then YELLOW_LED
  else Color_to_Z NO_COLOR.

Definition buttonToColor (btnPin : Z) : Color :=
  if btnPin =? RED_BUTTON then RED
  else if btnPin =? BLUE_BUTTON then BLUE
  else if btnPin =? GREEN_BUTTON then GREEN
  else if btnPin =? YELLOW_BUTTON then YELLOW
  else NO_COLOR.

(** ** The state and error monad of the model

    A computation either returns, or is still polling the lines when the
    tape of reads ends ([Blocked], with the state reached), or has accessed
    [sequence] outside its 25 elements ([Undefined]: the C standard gives
    such a program no meaning). *)

Inductive Outcome (A : Type) : Type :=
| Ret (a : A) (s : State)
| Blocked (s : State)
| Undefined.
Arguments Ret {A} a s.
Arguments Blocked {A} s.
Arguments Undefined {A}.

Definition M (A : Type) : Type := State -> Outcome A.

Definition ret {A : Type} (a : A) : M A := fun s => Ret a s.

Definition bind {A B : Type} (m : M A) (k : A -> M B) : M B :=
  fun s =>
    match m s with
    | Ret a s' => k a s'
    | Blocked s' => Blocked s'
    | Undefined => Undefined
    end.

Notation "x <- m ;; k" := (bind m (fun x => k))
  (at level 100, m at next level, right associativity).
Notation "m ;; k" := (bind m (fun _ => k))
  (at level 100, right associativity).

(** The state an outcome stops in, if any. *)
Definition final_state {A : Type} (o : Outcome A) : option State :=
  match o with
  | Ret _ s => Some s
  | Blocked s => Some s
  | Undefined => None
  end.

(** *** Access to the world *)

Definition log (e : Event) (w : World) : World :=
  mkWorld (pin_tape w) (rng w) (rng_calls w) (trace w ++ [e]).

Definition digitalWrite (pin val : Z) : M unit :=
  fun s => Ret tt (mkState (g_GameState s) (buttons s) (log (EvWrite pin val) (world s))).

Definition delay (ms : Z) : M unit :=
  fun s => Ret tt (mkState (g_GameState s) (buttons s) (log (EvDelay ms) (world s))).

(** [digitalRead(pin)] takes the next instant of the tape. *)
Definition digitalRead (pin : Z) : M Z :=
  fun s =>
    let w := world s in
    match pin_tape w with
    | [] => Blocked s
    | l :: rest =>
        Ret (line_level l pin)
            (mkState (g_GameState s) (buttons s)
                     (mkWorld rest (rng w) (rng_calls w) (trace w)))
    end.

(** [random(howsmall, howbig)] takes the next draw. *)
Definition random (howsmall howbig : Z) : M Z :=
  fun s =>
    let w := world s in
    Ret (random_range (rng w (rng_calls w)) howsmall howbig)
        (mkState (g_GameState s) (buttons s)
                 (mkWorld (pin_tape w) (rng w) (S (rng_calls w)) (trace w))).

(** *** Access to the globals *)

Definition get_GameState : M GameState := fun s => Ret (g_GameState s) s.

Definition put_GameState (g : GameState) : M unit :=
  fun s => Ret tt (mkState g (buttons s) (world s)).

Definition get_buttons : M ButtonStates := fun s => Ret (buttons s) s.

Definition put_buttons (b : ButtonStates) : M unit :=
  fun s => Ret tt (mkState (g_GameState s) b (world s)).

(** [g_GameState.sequence[i]] as an rvalue: defined inside the array only. *)
Definition read_sequence (i : Z) : M Color :=
  fun s =>
    if (0 <=? i) && (i <? SEQUENCE_CAPACITY)
    then Ret (nth (Z.to_nat i) (sequence (g_GameState s)) NO_COLOR) s
    else Undefined.

(** [g_GameState.sequence[i] = c]: defined inside the array only. *)
Definition write_sequence (i : Z) (c : Color) : M unit :=
  fun s =>
    let g := g_GameState s in
    if (0 <=? i) && (i <? SEQUENCE_CAPACITY)
    then Ret tt (mkState (mkGameState (has_lost g) (<[Z.to_nat i := c]> (sequence g)) (index g))
                         (buttons s) (world s))
    else Undefined.

(** [g_GameState.index++] on a [uint8_t]. *)
Definition incr_index : M unit :=
  g <- get_GameState ;;
  put_GameState (mkGameState (has_lost g) (sequence g) (uint8 (index g + 1))).

(** [g_GameState.has_lost = b] *)
Definition set_has_lost (b : bool) : M unit :=
  g <- get_GameState ;;
  put_GameState (mkGameState b (sequence g) (index g)).

(** ** The functions of the sketch *)

Definition runStartup : M unit :=
  digitalWrite RED_LED HIGH ;;
  delay 500 ;;
  digitalWrite BLUE_LED HIGH ;;
  delay 500 ;;
  digitalWrite GREEN_LED HIGH ;;
  delay 500 ;;
  digitalWrite YELLOW_LED HIGH ;;
  delay 1000 ;;
  digitalWrite RED_LED LOW ;;
  digitalWrite BLUE_LED LOW ;;
  digitalWrite GREEN_LED LOW ;;
  digitalWrite YELLOW_LED LOW.

Definition addColor : M unit :=
  v <- random (Color_to_Z RED) (Color_to_Z YELLOW + 1) ;;
  let color := Color_of_Z v in
  g <- get_GameState ;;
  write_sequence (index g) color ;;
  incr_index.

Definition displayColor (c : Color) : M unit :=
  let color_pin :=
    match c with
    | RED => RED_LED
    | BLUE => BLUE_LED
    | GREEN => GREEN_LED
    | YELLOW => YELLOW_LED
    | _ => 0
    end in
  digitalWrite color_pin HIGH ;;
  delay 500 ;;
  digitalWrite color_pin LOW.

(** [for (uint8_t i = 0; i < g_GameState.index; i++) { ... }].  The guard
    compares two [uint8_t], so it is evaluated at most 256 times; [n]
    bounds the evaluations left. *)
Fixpoint displaySequence_from (n : nat) (i : Z) : M unit :=
  match n with
  | O => ret tt
  | S n' =>
      g <- get_GameState ;;
      if i <? index g then
        c <- read_sequence i ;;
        displayColor c ;;
        delay 250 ;;
        displaySequence_from n' (uint8 (i + 1))
      else ret tt
  end.

Definition displaySequence : M unit := displaySequence_from 256 0.

Definition updateButtonStates : M unit :=
  r <- digitalRead RED_BUTTON ;;
  b <- digitalRead BLUE_BUTTON ;;
  g <- digitalRead GREEN_BUTTON ;;
  y <- digitalRead YELLOW_BUTTON ;;
  put_buttons (mkButtonStates (uint8 r) (uint8 b) (uint8 g) (uint8 y)).

Definition any_pressed (b : ButtonStates) : bool :=
  (red_button_state b =? HIGH)
  || (blue_button_state b =? HIGH)
  || (green_button_state b =? HIGH)
  || (yellow_button_state b =? HIGH).

Definition buttonIsPressed : M bool :=
  updateButtonStates ;;
  b <- get_buttons ;;
  ret (any_pressed b).

Definition getButtonPressed : M Z :=
  b <- get_buttons ;;
  ret (getButtonPressed_of b).

(** [while (cond) { body }] for a guard that reads a line.  Every evaluation
    of such a guard takes one instant of the tape or more, so a tape of [n]
    instants allows at most [n] evaluations that return: the evaluation after
    those is blocked.  [fuel] counts the evaluations allowed. *)
Fixpoint while_ (fuel : nat) (cond : M bool) (body : M unit) : M unit :=
  match fuel with
  | O => fun s => Blocked s
  | S fuel' =>
      b <- cond ;;
      if b then body ;; while_ fuel' cond body else ret tt
  end.

Definition poll (cond : M bool) (body : M unit) : M unit :=
  fun s => while_ (S (length (pin_tape (world s)))) cond body s.

Definition getButtonColor : M Color :=
  (* await button input *)
  poll (p <- buttonIsPressed ;; ret (negb p)) (delay 10) ;;
  (* find which button was pressed *)
  buttonPin <- getButtonPressed ;;
  let ledPin := buttonToLED buttonPin in
  (* light up corresponding LED *)
  digitalWrite ledPin HIGH ;;
  (* check if button is being held *)
  poll (v <- digitalRead buttonPin ;; ret (v =? HIGH)) (delay 10) ;;
  (* turn off corresponding LED *)
  digitalWrite ledPin LOW ;;
  (* convert button to color and return color *)
  ret (buttonToColor buttonPin).

(** The input loop of [startNextRound]:
    [for (uint8_t btnsPressed = 0; btnsPressed < g_GameState.index; btnsPressed++)
       { chosenColor = getButtonColor();
         if (chosenColor != g_GameState.sequence[btnsPressed])
           { g_GameState.has_lost = true; return; } }]
    with [n] the bound on guard evaluations, as in [displaySequence_from]. *)
Fixpoint checkInputs_from (n : nat) (btnsPressed : Z) : M unit :=
  match n with
  | O => ret tt
  | S n' =>
      g <- get_GameState ;;
      if btnsPressed <? index g then
        chosenColor <- getButtonColor ;;
        expected <- read_sequence btnsPressed ;;
        if negb (Color_eqb chosenColor expected) then set_has_lost true
        else checkInputs_from n' (uint8 (btnsPressed + 1))
      else ret tt
  end.

Definition checkInputs : M unit := checkInputs_from 256 0.

Definition startNextRound : M unit :=
  delay 250 ;;
  addColor ;;
  displaySequence ;;
  delay 1500 ;;
  checkInputs.

Definition showLoss : M unit :=
  digitalWrite RED_LED HIGH ;;
  digitalWrite BLUE_LED HIGH ;;
  digitalWrite GREEN_LED HIGH ;;
  digitalWrite YELLOW_LED HIGH ;;
  delay 1000 ;;
  digitalWrite YELLOW_LED LOW ;;
  delay 500 ;;
  digitalWrite GREEN_LED LOW ;;
  delay 500 ;;
  digitalWrite BLUE_LED LOW ;;
  delay 500 ;;
  digitalWrite RED_LED LOW ;;
  delay 500.

Definition loop : M unit :=
  g <- get_GameState ;;
  if negb (has_lost g) then startNextRound else showLoss.

(** [n] iterations of [loop], as the Arduino runtime calls it. *)
Fixpoint loops (n : nat) : M unit :=
  match n with
  | O => ret tt
  | S n' => loop ;; loops n'
  end.

(** ** Scripts for the tape *)

Definition idle : Lines := mkLines false false false false.

Definition only (c : Color) : Lines :=
  match c with
  | RED => mkLines true false false false
  | BLUE => mkLines false true false false
  | GREEN => mkLines false false true false
  | YELLOW => mkLines false false false true
  | NO_COLOR => idle
  end.

(** One clean press of the button of colour [c]: the four reads of
    [updateButtonStates] see that button down, the next read sees it up. *)
Definition press (c : Color) : list Lines :=
  [only c; only c; only c; only c; idle].

Definition presses (cs : list Color) : list Lines := concat (map press cs).

(** Reading [n] inputs in a row, as the input loop does when none differs. *)
Fixpoint readInputs (n : nat) : M (list Color) :=
  match n with
  | O => ret []
  | S n' =>
      c <- getButtonColor ;;
      cs <- readInputs n' ;;
      ret (c :: cs)
  end.

(** * The vocabulary of the properties *)

(** [m] relates the state it starts in to any state it stops in, be it by
    returning or by waiting at the end of the tape. *)
Definition preserves (P : State -> State -> Prop) {A : Type} (m : M A) : Prop :=
  forall s s', final_state (m s) = Some s' -> P s s'.

(** Nothing of [g_GameState] has changed. *)
Definition same_game (s s' : State) : Prop := g_GameState s' = g_GameState s.

(** None of the button state globals has changed. *)
Definition same_buttons (s s' : State) : Prop := buttons s' = buttons s.

(** The four pins the buttons are wired to. *)
Definition is_button_pin (p : Z) : Prop :=
  p = RED_BUTTON \/ p = BLUE_BUTTON \/ p = GREEN_BUTTON \/ p = YELLOW_BUTTON.

(** The state global that holds the last sample of a button line. *)
Definition button_state (b : ButtonStates) (pin : Z) : Z :=
  if pin =? RED_BUTTON then red_button_state b
  else if pin =? BLUE_BUTTON then blue_button_state b
  else if pin =? GREEN_BUTTON then green_button_state b
  else if pin =? YELLOW_BUTTON then yellow_button_state b
  else LOW.

(** Red before Blue before Green before Yellow. *)
Definition priority_order : list Z :=
  [RED_BUTTON; BLUE_BUTTON; GREEN_BUTTON; YELLOW_BUTTON].

(** The first line of [priority_order] sampled high, if there is one. *)
Definition highest_priority_high (b : ButtonStates) : option Z :=
  find (fun pin => button_state b pin =? HIGH) priority_order.

(** The state globals after [updateButtonStates] has sampled a press. *)
Definition sampled (c : Color) : ButtonStates :=
  mkButtonStates (level (red_line (only c))) (level (blue_line (only c)))
                 (level (green_line (only c))) (level (yellow_line (only c))).

(** The first line of [priority_order] that is high on [l]. *)
Definition first_high (l : Lines) : option Z :=
  find (fun pin => line_level l pin =? HIGH) priority_order.

(** The state globals after the four reads of [updateButtonStates] have all
    seen the lines [l]. *)
Definition samples_of (l : Lines) : ButtonStates :=
  mkButtonStates (level (red_line l)) (level (blue_line l))
                 (level (green_line l)) (level (yellow_line l)).

(** The colour [addColor] makes of a draw [raw] of the generator. *)
Definition drawn_color (raw : N) : Color :=
  Color_of_Z (random_range raw (Color_to_Z RED) (Color_to_Z YELLOW + 1)).

(** How many of the draws [0 .. bound-1] give the colour [c]. *)
Definition count_draws (c : Color) (bound : nat) : nat :=
  length (List.filter (fun r => Color_eqb (drawn_color (N.of_nat r)) c) (seq 0 bound)).

(** The state [addColor] returns in when its write is inside the array. *)
Definition after_addColor (s : State) : State :=
  let g := g_GameState s in
  let w := world s in
  mkState
    (mkGameState (has_lost g)
       (<[Z.to_nat (index g) := drawn_color (rng w (rng_calls w))]> (sequence g))
       (uint8 (index g + 1)))
    (buttons s)
    (mkWorld (pin_tape w) (rng w) (S (rng_calls w)) (trace w)).

(** The colours currently in the sequence: the first [index] elements. *)
Definition live (g : GameState) : list Color :=
  take (Z.to_nat (index g)) (sequence g).

(** The state after the actions [evs] have been logged. *)
Definition emit (evs : list Event) (s : State) : State :=
  let w := world s in
  mkState (g_GameState s) (buttons s)
          (mkWorld (pin_tape w) (rng w) (rng_calls w) (trace w ++ evs)).

(** One pulse on the LED of a colour: high, held for 500 ms, low. *)
Definition pulse (c : Color) : list Event :=
  [EvWrite (colorToLED c) HIGH; EvDelay 500; EvWrite (colorToLED c) LOW].

(** The pulses of a list of colours, each followed by the 250 ms pause. *)
Definition playback (cs : list Color) : list Event :=
  concat (map (fun c => pulse c ++ [EvDelay 250]) cs).

(** The pins driven high in a log, in order. *)
Definition pins_lit (evs : list Event) : list Z :=
  omap (fun e => match e with
                 | EvWrite pin v => if v =? HIGH then Some pin else None
                 | EvDelay _ => None
                 end) evs.

(** A state of the C struct: the array has its 25 elements and the count
    of colours in it is within the capacity. *)
Definition wf_GameState (g : GameState) : Prop :=
  length (sequence g) = 25%nat /\ 0 <= index g <= SEQUENCE_CAPACITY.

(** The state after [g_GameState.has_lost = true]. *)
Definition lose (s : State) : State :=
  mkState (mkGameState true (sequence (g_GameState s)) (index (g_GameState s)))
          (buttons s) (world s).

(** What the input loop may do to the game state: raise [has_lost]. *)
Definition only_loses (s s' : State) : Prop :=
  sequence (g_GameState s') = sequence (g_GameState s)
  /\ index (g_GameState s') = index (g_GameState s)
  /\ (has_lost (g_GameState s) = true -> has_lost (g_GameState s') = true).

(** The actions of [showLoss]. *)
Definition loss_animation : list Event :=
  [EvWrite RED_LED HIGH; EvWrite BLUE_LED HIGH; EvWrite GREEN_LED HIGH;
   EvWrite YELLOW_LED HIGH; EvDelay 1000;
   EvWrite YELLOW_LED LOW; EvDelay 500;
   EvWrite GREEN_LED LOW; EvDelay 500;
   EvWrite BLUE_LED LOW; EvDelay 500;
   EvWrite RED_LED LOW; EvDelay 500].

(** The invariant of the game state: a state of the C struct whose live
    colours are all playable. *)
Definition Inv (g : GameState) : Prop :=
  wf_GameState g /\ Forall playable (live g).

(** The operations of the sketch that run after [setup]. *)
Definition operations : list (M unit) :=
  [addColor; displaySequence; getButtonColor ;; ret tt; checkInputs;
   startNextRound; showLoss; loop].

(** Power-on states and what the operations make of them: the states in
    which an operation returns, and those in which it is waiting for the
    player when the tape ends. *)
Inductive reachable : State -> Prop :=
| reachable_initial tape r : reachable (initial_State tape r)
| reachable_step s op s' :
    reachable s -> In op operations -> final_state (op s) = Some s' -> reachable s'.

(** The four pins the LEDs are wired to. *)
Definition LED_pins : list Z := [RED_LED; BLUE_LED; GREEN_LED; YELLOW_LED].

(** The colours of the first [j] draws of [r]. *)
Definition colors (r : nat -> N) (j : nat) : list Color :=
  map (fun i => drawn_color (r i)) (seq 0 j).

(** The tape of a player who repeats the sequence without fault in the
    rounds [j + 1] to [j + m]. *)
Definition perfect_tape (r : nat -> N) (j m : nat) : list Lines :=
  concat (map (fun i => presses (colors r i)) (seq (S j) m)).

(** ** LED levels, durations and outcomes *)

(** The level of [pin] after the actions [evs], from the level [lvl]: that
    of the last [digitalWrite] to the pin. *)
Definition level_after (lvl : Z) (evs : list Event) (pin : Z) : Z :=
  fold_left (fun l e => match e with
                        | EvWrite p v => if p =? pin then v else l
                        | EvDelay _ => l
                        end) evs lvl.

(** The level a log leaves [pin] at; an output never written is low. *)
Definition pin_level (evs : list Event) (pin : Z) : Z := level_after LOW evs pin.

(** The four LEDs are all at level [v] after the log [evs]. *)
Definition all_LEDs (v : Z) (evs : list Event) : Prop :=
  Forall (fun pin => pin_level evs pin = v) LED_pins.

(** The time a log spends in [delay], in milliseconds. *)
Definition duration (evs : list Event) : Z :=
  fold_right (fun e t => match e with
                         | EvDelay ms => ms + t
                         | EvWrite _ _ => t
                         end) 0 evs.

(** The two phases of [runStartup]. *)
Definition startup_on : list Event :=
  [EvWrite RED_LED HIGH; EvDelay 500; EvWrite BLUE_LED HIGH; EvDelay 500;
   EvWrite GREEN_LED HIGH; EvDelay 500; EvWrite YELLOW_LED HIGH; EvDelay 1000].

Definition startup_off : list Event :=
  [EvWrite RED_LED LOW; EvWrite BLUE_LED LOW; EvWrite GREEN_LED LOW;
   EvWrite YELLOW_LED LOW].

(** The two phases of [showLoss]. *)
Definition loss_on : list Event :=
  [EvWrite RED_LED HIGH; EvWrite BLUE_LED HIGH; EvWrite GREEN_LED HIGH;
   EvWrite YELLOW_LED HIGH; EvDelay 1000].

Definition loss_off : list Event :=
  [EvWrite YELLOW_LED LOW; EvDelay 500; EvWrite GREEN_LED LOW; EvDelay 500;
   EvWrite BLUE_LED LOW; EvDelay 500; EvWrite RED_LED LOW; EvDelay 500].

(** [k] turns of a polling loop: [delay(10)] each. *)
Definition delays (k : nat) : list Event := replicate k (EvDelay 10).

(** [m] relates the state it starts in to any state it returns in. *)
Definition returns (P : State -> State -> Prop) {A : Type} (m : M A) : Prop :=
  forall s a s', m s = Ret a s' -> P s s'.

(** [m] never leaves the array. *)
Definition defined {A : Type} (m : M A) : Prop := forall s, m s <> Undefined.

(** If the LEDs were all off, they are all off again. *)
Definition dark (s s' : State) : Prop :=
  all_LEDs LOW (trace (world s)) -> all_LEDs LOW (trace (world s')).

(** The generator is where it was. *)
Definition same_draws (s s' : State) : Prop :=
  rng (world s') = rng (world s) /\ rng_calls (world s') = rng_calls (world s).

(** No line is high at the instant [l]. *)
Definition all_low (l : Lines) : Prop :=
  red_line l = false /\ blue_line l = false /\ green_line l = false
  /\ yellow_line l = false.

(** The colours in the sequence are the colours of the generator's values,
    in the order they were drawn, one draw for each colour. *)
Definition follows_generator (s : State) : Prop :=
  Z.of_nat (rng_calls (world s)) = index (g_GameState s)
  /\ live (g_GameState s) = colors (rng (world s)) (rng_calls (world s)).

(** The log has grown, nothing of it was undone. *)
Definition extends (s s' : State) : Prop :=
  exists evs, trace (world s') = trace (world s) ++ evs.

(** * Properties *)

(** ** Laws of the monad *)

Lemma bind_Ret {A B} (m : M A) (k : A -> M B) s b s' :
  bind m k s = Ret b s' ->
  exists a s1, m s = Ret a s1 /\ k a s1 = Ret b s'.
Proof.
  unfold bind. destruct (m s) as [a s1| |]; try discriminate. eauto.
Qed.

Lemma bind_final {A B} (m : M A) (k : A -> M B) s s' :
  final_state (bind m k s) = Some s' ->
  (exists a s1, m s = Ret a s1 /\ final_state (k a s1) = Some s')
  \/ m s = Blocked s'.
Proof.
  unfold bind. destruct (m s) as [a s1|s1|]; simpl; intros H.
  - left. eauto.
  - right. congruence.
  - discriminate.
Qed.

Lemma bind_of_Ret {A B} (m : M A) (k : A -> M B) s a s1 :
  m s = Ret a s1 -> bind m k s = k a s1.
Proof. unfold bind. intros ->. reflexivity. Qed.

Lemma bind_assoc {A B C} (m : M A) (k : A -> M B) (h : B -> M C) s :
  bind (bind m k) h s = bind m (fun a => bind (k a) h) s.
Proof. unfold bind. destruct (m s); reflexivity. Qed.

(** ** Frame reasoning: what a computation leaves alone *)

Section Preservation.

Variable P : State -> State -> Prop.
Hypothesis P_refl : forall s, P s s.
Hypothesis P_trans : forall s1 s2 s3, P s1 s2 -> P s2 s3 -> P s1 s3.

Lemma preserves_ret {A} (a : A) : preserves P (ret a).
Proof using P_refl. intros s s' [= <-]. apply P_refl. Qed.

Lemma preserves_bind {A B} (m : M A) (k : A -> M B) :
  preserves P m -> (forall a, preserves P (k a)) -> preserves P (bind m k).
Proof using P_trans.
  intros Hm Hk s s' H. apply bind_final in H as [(a & s1 & Hr & Hf)|Hb].
  - apply P_trans with s1.
    + apply Hm. rewrite Hr. reflexivity.
    + eapply Hk, Hf.
  - apply Hm. rewrite Hb. reflexivity.
Qed.

Lemma preserves_if {A} (b : bool) (m1 m2 : M A) :
  preserves P m1 -> preserves P m2 -> preserves P (if b then m1 else m2).
Proof. destruct b; auto. Qed.

Lemma preserves_while fuel cond body :
  preserves P cond -> preserves P body -> preserves P (while_ fuel cond body).
Proof using P_refl P_trans.
  intros Hc Hb. induction fuel as [|fuel IH]; simpl.
  - intros s s' [= <-]. apply P_refl.
  - apply preserves_bind; [exact Hc|]. intros b.
    apply preserves_if; [|apply preserves_ret].
    apply preserves_bind; auto.
Qed.

Lemma preserves_poll cond body :
  preserves P cond -> preserves P body -> preserves P (poll cond body).
Proof using P_refl P_trans.
  intros Hc Hb s s' H. unfold poll in H.
  eapply preserves_while; eauto.
Qed.

End Preservation.

Lemma same_game_refl s : same_game s s.
Proof. reflexivity. Qed.

Lemma same_game_trans s1 s2 s3 : same_game s1 s2 -> same_game s2 s3 -> same_game s1 s3.
Proof. unfold same_game. congruence. Qed.

Lemma same_buttons_refl s : same_buttons s s.
Proof. reflexivity. Qed.

Lemma same_buttons_trans s1 s2 s3 :
  same_buttons s1 s2 -> same_buttons s2 s3 -> same_buttons s1 s3.
Proof. unfold same_buttons. congruence. Qed.

Create HintDb frame.

(** A primitive either stops in a state built from the one it starts in, or
    does not stop: unfold it and look. *)
Ltac prim :=
  let s := fresh "s" in
  let s' := fresh "s'" in
  let H := fresh "H" in
  intros s s' H;
  cbv [digitalWrite delay digitalRead random get_GameState put_GameState
       get_buttons put_buttons read_sequence write_sequence] in H;
  repeat match type of H with
         | context [match ?x with _ => _ end] => destruct x eqn:?
         end;
  simpl in H; inversion H; subst; reflexivity.

(** Structural steps through [ret], [bind], conditionals and polling loops,
    for a relation with proofs [r] of reflexivity and [t] of transitivity. *)
Ltac frame_with r t :=
  repeat match goal with
         | |- preserves _ (ret _) => apply (preserves_ret _ r)
         | |- preserves _ (bind _ _) => apply (preserves_bind _ t); [|intros ?]
         | |- preserves _ (poll _ _) => apply (preserves_poll _ r t)
         | |- preserves _ (if _ then _ else _) => apply preserves_if
         | |- preserves _ (let _ := _ in _) => cbv zeta
         | |- _ => solve [auto with frame]
         end.

Lemma digitalWrite_same_game pin v : preserves same_game (digitalWrite pin v).
Proof. prim. Qed.

Lemma delay_same_game ms : preserves same_game (delay ms).
Proof. prim. Qed.

Lemma digitalRead_same_game pin : preserves same_game (digitalRead pin).
Proof. prim. Qed.

Lemma get_buttons_same_game : preserves same_game get_buttons.
Proof. prim. Qed.

Lemma put_buttons_same_game b : preserves same_game (put_buttons b).
Proof. prim. Qed.

Lemma get_GameState_same_game : preserves same_game get_GameState.
Proof. prim. Qed.

Lemma read_sequence_same_game i : preserves same_game (read_sequence i).
Proof. prim. Qed.

#[global] Hint Resolve digitalWrite_same_game delay_same_game digitalRead_same_game
  get_buttons_same_game put_buttons_same_game get_GameState_same_game
  read_sequence_same_game : frame.

Ltac keeps_game := frame_with same_game_refl same_game_trans.

Lemma updateButtonStates_same_game : preserves same_game updateButtonStates.
Proof. unfold updateButtonStates. keeps_game. Qed.

#[global] Hint Resolve updateButtonStates_same_game : frame.

Lemma buttonIsPressed_same_game : preserves same_game buttonIsPressed.
Proof. unfold buttonIsPressed. keeps_game. Qed.

Lemma getButtonPressed_same_game : preserves same_game getButtonPressed.
Proof. unfold getButtonPressed. keeps_game. Qed.

#[global] Hint Resolve buttonIsPressed_same_game getButtonPressed_same_game : frame.

Lemma getButtonColor_same_game : preserves same_game getButtonColor.
Proof. unfold getButtonColor. keeps_game. Qed.

Lemma displayColor_same_game c : preserves same_game (displayColor c).
Proof. unfold displayColor. keeps_game. Qed.

#[global] Hint Resolve getButtonColor_same_game displayColor_same_game : frame.

Lemma displaySequence_from_same_game n : forall i, preserves same_game (displaySequence_from n i).
Proof.
  induction n as [|n IH]; intros i; simpl; keeps_game.
Qed.

Lemma displaySequence_same_game : preserves same_game displaySequence.
Proof. apply displaySequence_from_same_game. Qed.

Lemma showLoss_same_game : preserves same_game showLoss.
Proof. unfold showLoss. keeps_game. Qed.

Lemma readInputs_same_game n : preserves same_game (readInputs n).
Proof. induction n as [|n IH]; simpl; keeps_game. Qed.

(** The button state globals are written by [updateButtonStates] only. *)

Lemma digitalWrite_same_buttons pin v : preserves same_buttons (digitalWrite pin v).
Proof. prim. Qed.

Lemma delay_same_buttons ms : preserves same_buttons (delay ms).
Proof. prim. Qed.

Lemma digitalRead_same_buttons pin : preserves same_buttons (digitalRead pin).
Proof. prim. Qed.

#[global] Hint Resolve digitalWrite_same_buttons delay_same_buttons
  digitalRead_same_buttons : frame.

Ltac keeps_buttons := frame_with same_buttons_refl same_buttons_trans.

(** ** The pin and colour tables *)

Ltac case_pins :=
  repeat match goal with
         | |- context [?a =? ?b] => destruct (Z.eqb_spec a b)
         | H : context [?a =? ?b] |- _ => destruct (Z.eqb_spec a b)
         end.

Lemma buttonToColor_playable p : is_button_pin p -> playable (buttonToColor p).
Proof.
  intros [ -> | [ -> | [ -> | -> ]]]; discriminate.
Qed.

(** C10.  The three tables agree: for every pin value [p], going from the
    button pin to its colour and from the colour to its LED gives the LED
    that [buttonToLED] gives directly.  The four button pins reach the LED
    pins 3, 5, 7 and 9, and every other value reaches 0 both ways. *)
Theorem colorToLED_buttonToColor :
  (forall p : Z, colorToLED (buttonToColor p) = buttonToLED p)
  /\ (buttonToLED RED_BUTTON = RED_LED /\ buttonToLED BLUE_BUTTON = BLUE_LED
      /\ buttonToLED GREEN_BUTTON = GREEN_LED /\ buttonToLED YELLOW_BUTTON = YELLOW_LED)
  /\ (forall p : Z, ~ is_button_pin p ->
        buttonToLED p = 0 /\ colorToLED (buttonToColor p) = 0).
Proof.
  split; [|split].
  - intros p. unfold buttonToColor, buttonToLED. case_pins; reflexivity.
  - repeat split.
  - intros p Hp. unfold is_button_pin in Hp.
    unfold buttonToColor, buttonToLED. case_pins; subst; tauto.
Qed.

Lemma colorToLED_buttonToColor_witness :
  colorToLED (buttonToColor 200) = buttonToLED 200
  /\ buttonToLED 200 = 0 /\ colorToLED (buttonToColor 200) = 0.
Proof.
  destruct colorToLED_buttonToColor as (Hall & _ & Hother).
  split; [apply Hall|].
  apply Hother. unfold is_button_pin, RED_BUTTON, BLUE_BUTTON, GREEN_BUTTON, YELLOW_BUTTON. lia.
Defined.

(** ** Classifying a press *)

Lemma getButtonPressed_of_priority b :
  any_pressed b = true ->
  highest_priority_high b = Some (getButtonPressed_of b).
Proof.
  unfold any_pressed, highest_priority_high, getButtonPressed_of. simpl.
  unfold button_state. simpl.
  destruct (red_button_state b =? HIGH); [reflexivity|].
  destruct (blue_button_state b =? HIGH); [reflexivity|].
  destruct (green_button_state b =? HIGH); [reflexivity|].
  destruct (yellow_button_state b =? HIGH); [reflexivity|].
  discriminate.
Qed.

Lemma getButtonPressed_of_button b :
  any_pressed b = true -> is_button_pin (getButtonPressed_of b).
Proof.
  unfold any_pressed, getButtonPressed_of, is_button_pin.
  destruct (red_button_state b =? HIGH); [auto|].
  destruct (blue_button_state b =? HIGH); [auto|].
  destruct (green_button_state b =? HIGH); [auto|].
  destruct (yellow_button_state b =? HIGH); [auto 6|].
  discriminate.
Qed.

(** A loop that returns has just seen its guard fail. *)
Lemma while_exit fuel cond body : forall s s',
  while_ fuel cond body s = Ret tt s' ->
  exists s0, cond s0 = Ret false s'.
Proof.
  induction fuel as [|fuel IH]; intros s s' H; simpl in H; [discriminate|].
  apply bind_Ret in H as (b & s1 & Hc & H).
  destruct b.
  - apply bind_Ret in H as (_ & s2 & _ & H). eauto.
  - injection H as <-. eauto.
Qed.

(** *** The bound on guard evaluations is never what stops a polling loop *)

Section Polling.

Variable cond : M bool.
Variable body : M unit.

Let tape_length (s : State) : nat := length (pin_tape (world s)).

Hypothesis cond_reads :
  forall s b s', cond s = Ret b s' -> (tape_length s' < tape_length s)%nat.
Hypothesis body_keeps_tape :
  forall s s', body s = Ret tt s' -> (tape_length s' <= tape_length s)%nat.

Lemma while_fuel_irrelevant (f1 : nat) : forall (f2 : nat) (s : State),
  (tape_length s < f1)%nat ->
  (tape_length s < f2)%nat ->
  while_ f1 cond body s = while_ f2 cond body s.
Proof using cond_reads body_keeps_tape.
  induction f1 as [|f1 IH]; intros f2 s H1 H2; [lia|].
  destruct f2 as [|f2]; [lia|]. simpl. unfold bind.
  destruct (cond s) as [b s1|s1|] eqn:Ec; try reflexivity.
  destruct b; [|reflexivity].
  destruct (body s1) as [[] s2|s2|] eqn:Eb; try reflexivity.
  pose proof (cond_reads _ _ _ Ec). pose proof (body_keeps_tape _ _ Eb).
  apply IH; lia.
Qed.

(** [poll] satisfies the equation of a [while] loop. *)
Lemma poll_unfold (s : State) :
  poll cond body s
  = (b <- cond ;; if b then body ;; poll cond body else ret tt) s.
Proof using cond_reads body_keeps_tape.
  unfold poll at 1. simpl. unfold bind.
  destruct (cond s) as [b s1|s1|] eqn:Ec; try reflexivity.
  destruct b; [|reflexivity].
  destruct (body s1) as [[] s2|s2|] eqn:Eb; try reflexivity.
  pose proof (cond_reads _ _ _ Ec). pose proof (body_keeps_tape _ _ Eb).
  unfold poll. apply while_fuel_irrelevant; unfold tape_length in *; lia.
Qed.

End Polling.

Lemma digitalRead_reads pin s v s' :
  digitalRead pin s = Ret v s' ->
  (length (pin_tape (world s')) < length (pin_tape (world s)))%nat.
Proof.
  unfold digitalRead. destruct (pin_tape (world s)) as [|l rest]; [discriminate|].
  intros [= _ <-]. simpl. lia.
Qed.

Lemma delay_keeps_tape ms s s' :
  delay ms s = Ret tt s' ->
  (length (pin_tape (world s')) <= length (pin_tape (world s)))%nat.
Proof. intros [= <-]. simpl. lia. Qed.

Lemma buttonIsPressed_reads s p s' :
  buttonIsPressed s = Ret p s' ->
  (length (pin_tape (world s')) < length (pin_tape (world s)))%nat.
Proof.
  unfold buttonIsPressed, updateButtonStates. intros H.
  apply bind_Ret in H as ([] & s1 & H & H').
  apply bind_Ret in H' as (b & s2 & Hb & H'). injection Hb as <- <-.
  apply bind_Ret in H as (r & t1 & H1 & H).
  apply bind_Ret in H as (bl & t2 & H2 & H).
  apply bind_Ret in H as (g & t3 & H3 & H).
  apply bind_Ret in H as (y & t4 & H4 & H).
  injection H as <-. injection H' as _ <-.
  apply digitalRead_reads in H1, H2, H3, H4. simpl. lia.
Qed.

(** The two loops of [getButtonColor] are [while] loops. *)
Lemma await_press_unfold s :
  poll (p <- buttonIsPressed ;; ret (negb p)) (delay 10) s
  = (p <- buttonIsPressed ;;
     if negb p
     then delay 10 ;; poll (p <- buttonIsPressed ;; ret (negb p)) (delay 10)
     else ret tt) s.
Proof.
  rewrite poll_unfold.
  - unfold bind. destruct (buttonIsPressed s); reflexivity.
  - intros s0 b s1 H. apply bind_Ret in H as (p & s2 & Hp & H).
    injection H as _ <-. apply (buttonIsPressed_reads _ _ _ Hp).
  - apply delay_keeps_tape.
Qed.

Lemma await_release_unfold pin s :
  poll (v <- digitalRead pin ;; ret (v =? HIGH)) (delay 10) s
  = (v <- digitalRead pin ;;
     if v =? HIGH
     then delay 10 ;; poll (v <- digitalRead pin ;; ret (v =? HIGH)) (delay 10)
     else ret tt) s.
Proof.
  rewrite poll_unfold.
  - unfold bind. destruct (digitalRead pin s); reflexivity.
  - intros s0 b s1 H. apply bind_Ret in H as (v & s2 & Hv & H).
    injection H as _ <-. apply (digitalRead_reads _ _ _ _ Hv).
  - apply delay_keeps_tape.
Qed.

Lemma buttonIsPressed_Ret s p s' :
  buttonIsPressed s = Ret p s' -> p = any_pressed (buttons s').
Proof.
  unfold buttonIsPressed. intros H.
  apply bind_Ret in H as (_ & s1 & _ & H).
  apply bind_Ret in H as (b & s2 & Hb & H).
  injection Hb as <- <-. injection H as <- <-. reflexivity.
Qed.

(** What [getButtonColor] returns is computed from the samples that ended
    its wait, which are still in the state globals when it returns. *)
Lemma getButtonColor_Ret s c s' :
  getButtonColor s = Ret c s' ->
  any_pressed (buttons s') = true
  /\ c = buttonToColor (getButtonPressed_of (buttons s')).
Proof.
  unfold getButtonColor. intros H.
  apply bind_Ret in H as ([] & s1 & Hwait & H).
  apply bind_Ret in H as (pin & s2 & Hpin & H).
  injection Hpin as <- <-. cbv zeta in H.
  assert (Hb : buttons s' = buttons s1).
  { revert H.
    match goal with
    | |- ?m s1 = _ -> _ =>
        intros H; assert (Hk : preserves same_buttons m) by keeps_buttons;
        apply (Hk s1 s'); rewrite H; reflexivity
    end. }
  rewrite Hb. split.
  - apply while_exit in Hwait as (s0 & Hc).
    apply bind_Ret in Hc as (p & s3 & Hp & Hc).
    injection Hc as Hn <-. apply buttonIsPressed_Ret in Hp.
    rewrite <- Hp. destruct p; [reflexivity|discriminate].
  - do 3 (apply bind_Ret in H as (? & ? & _ & H)).
    injection H as <- _. reflexivity.
Qed.

(** A clean press of a playable colour is read as that colour, and takes
    exactly the five instants of the press. *)
Lemma getButtonColor_press c g b rest r n tr :
  playable c ->
  getButtonColor (mkState g b (mkWorld (press c ++ rest) r n tr))
  = Ret c (mkState g (sampled c) (mkWorld rest r n
             (tr ++ [EvWrite (colorToLED c) HIGH; EvWrite (colorToLED c) LOW]))).
Proof.
  intros Hc.
  change [EvWrite (colorToLED c) HIGH; EvWrite (colorToLED c) LOW]
    with ([EvWrite (colorToLED c) HIGH] ++ [EvWrite (colorToLED c) LOW]).
  rewrite app_assoc.
  destruct c; [contradiction Hc; reflexivity| | | |]; reflexivity.
Qed.

(** Any combination of lines held while it is sampled and then released. *)
Lemma getButtonColor_held l pin g b rest r n tr :
  first_high l = Some pin ->
  getButtonColor (mkState g b (mkWorld ([l; l; l; l; idle] ++ rest) r n tr))
  = Ret (buttonToColor pin)
        (mkState g (samples_of l)
           (mkWorld rest r n
              (tr ++ [EvWrite (buttonToLED pin) HIGH; EvWrite (buttonToLED pin) LOW]))).
Proof.
  intros H.
  change [EvWrite (buttonToLED pin) HIGH; EvWrite (buttonToLED pin) LOW]
    with ([EvWrite (buttonToLED pin) HIGH] ++ [EvWrite (buttonToLED pin) LOW]).
  rewrite app_assoc.
  destruct l as [[] [] [] []]; vm_compute in H; try discriminate;
    injection H as <-; reflexivity.
Qed.

(** C6.  Whenever one sampled line or more is high, [getButtonPressed]
    selects the first high one in the order Red, Blue, Green, Yellow; and a
    call of [getButtonColor] that returns, returns the colour of the button
    so selected from the samples that ended its wait.  In particular lines
    held together and then released are read as the colour of the first of
    them in that order. *)
Theorem getButtonPressed_priority :
  (forall s : State,
     any_pressed (buttons s) = true ->
     exists pin,
       getButtonPressed s = Ret pin s
       /\ highest_priority_high (buttons s) = Some pin
       /\ is_button_pin pin)
  /\ (forall s c s',
        getButtonColor s = Ret c s' ->
        exists pin,
          any_pressed (buttons s') = true
          /\ highest_priority_high (buttons s') = Some pin
          /\ c = buttonToColor pin
          /\ playable c)
  /\ (forall l pin s rest,
        first_high l = Some pin ->
        pin_tape (world s) = [l; l; l; l; idle] ++ rest ->
        exists s',
          getButtonColor s = Ret (buttonToColor pin) s'
          /\ highest_priority_high (buttons s') = Some pin
          /\ pin_tape (world s') = rest).
Proof.
  split; [|split].
  - intros s Hany. exists (getButtonPressed_of (buttons s)).
    split; [reflexivity|]. split.
    + apply getButtonPressed_of_priority, Hany.
    + apply getButtonPressed_of_button, Hany.
  - intros s c s' H. apply getButtonColor_Ret in H as (Hany & ->).
    exists (getButtonPressed_of (buttons s')). split; [exact Hany|].
    split; [apply getButtonPressed_of_priority, Hany|].
    split; [reflexivity|].
    apply buttonToColor_playable, getButtonPressed_of_button, Hany.
  - intros l pin [g b [tape r n tr]] rest Hl Htape. simpl in Htape. subst tape.
    eexists. split; [apply getButtonColor_held, Hl|]. simpl. split; [|reflexivity].
    destruct l as [[] [] [] []]; vm_compute in Hl; try discriminate;
      injection Hl as <-; reflexivity.
Qed.

(** Blue and Yellow held together are read as Blue. *)
Lemma getButtonPressed_priority_witness :
  let l := mkLines false true false true in
  let s := initial_State ([l; l; l; l; idle] ++ [idle]) (fun _ => 0%N) in
  exists s',
    getButtonColor s = Ret BLUE s'
    /\ highest_priority_high (buttons s') = Some BLUE_BUTTON
    /\ pin_tape (world s') = [idle].
Proof.
  intros l s.
  destruct getButtonPressed_priority as (_ & _ & H).
  apply (H l BLUE_BUTTON s [idle]); reflexivity.
Defined.

(** ** Extending the sequence *)

Lemma random_range_bounds raw lo hi :
  lo < hi -> lo <= random_range raw lo hi < hi.
Proof.
  intros H. unfold random_range, random_max.
  destruct (Z.geb_spec lo hi); [lia|].
  destruct (Z.eqb_spec (hi - lo) 0); [lia|].
  pose proof (Z.rem_bound_pos (Z.of_N raw) (hi - lo)). lia.
Qed.

Lemma drawn_color_playable raw : playable (drawn_color raw).
Proof.
  unfold drawn_color, playable.
  pose proof (random_range_bounds raw (Color_to_Z RED) (Color_to_Z YELLOW + 1)) as H.
  simpl in H. unfold Color_of_Z. simpl. case_pins; try discriminate. lia.
Qed.

(** The colour depends on the draw modulo 4 only. *)
Lemma drawn_color_mod raw :
  drawn_color raw = nth (N.to_nat (raw mod 4)) [RED; BLUE; GREEN; YELLOW] NO_COLOR.
Proof.
  unfold drawn_color, random_range, random_max. simpl.
  change (4 + 1 - 1) with 4.
  rewrite Z.rem_mod_nonneg by lia.
  assert (H : Z.of_N raw mod 4 = Z.of_N (raw mod 4)) by (rewrite N2Z.inj_mod; reflexivity).
  rewrite H.
  pose proof (N.mod_upper_bound raw 4) as Hb.
  destruct (raw mod 4)%N as [|[[|[]|]|[|[]|]|]] eqn:E; try reflexivity; lia.
Qed.

Lemma drawn_color_shift (m j : nat) :
  (j < 4)%nat ->
  drawn_color (N.of_nat (4 * m + j)) = nth j [RED; BLUE; GREEN; YELLOW] NO_COLOR.
Proof.
  intros Hj. rewrite drawn_color_mod. f_equal.
  replace (N.of_nat (4 * m + j)) with (N.of_nat j + N.of_nat m * 4)%N by lia.
  rewrite N.Div0.mod_add, N.mod_small by lia. lia.
Qed.

(** Every window of [4 * m] consecutive draws from 0 gives each playable
    colour exactly [m] times. *)
Lemma count_draws_uniform c m : playable c -> count_draws c (4 * m) = m.
Proof.
  intros Hc. unfold count_draws. induction m as [|m IH]; [reflexivity|].
  replace (4 * S m)%nat with (4 * m + 4)%nat by lia.
  rewrite seq_app, List.filter_app, length_app, IH.
  pose proof (drawn_color_shift m 0) as H0.
  pose proof (drawn_color_shift m 1) as H1.
  pose proof (drawn_color_shift m 2) as H2.
  pose proof (drawn_color_shift m 3) as H3.
  replace (4 * m + 0)%nat with (4 * m)%nat in H0 by lia.
  replace (4 * m + 1)%nat with (S (4 * m)) in H1 by lia.
  replace (4 * m + 2)%nat with (S (S (4 * m))) in H2 by lia.
  replace (4 * m + 3)%nat with (S (S (S (4 * m)))) in H3 by lia.
  change (0 + 4 * m)%nat with (4 * m)%nat.
  generalize dependent (4 * m)%nat. intros k _ H0 H1 H2 H3.
  cbn [seq List.filter]. rewrite H0, H1, H2, H3 by lia.
  destruct c; [contradiction Hc; reflexivity| | | |]; simpl; lia.
Qed.

Lemma addColor_eq s :
  addColor s =
  if (0 <=? index (g_GameState s)) && (index (g_GameState s) <? SEQUENCE_CAPACITY)
  then Ret tt (after_addColor s)
  else Undefined.
Proof.
  unfold addColor, bind, random, get_GameState, write_sequence, incr_index,
    put_GameState, bind, get_GameState. simpl.
  destruct ((0 <=? index (g_GameState s)) && (index (g_GameState s) <? SEQUENCE_CAPACITY));
    reflexivity.
Qed.

Lemma addColor_in_bounds s :
  0 <= index (g_GameState s) < SEQUENCE_CAPACITY ->
  addColor s = Ret tt (after_addColor s).
Proof.
  intros H. rewrite addColor_eq.
  destruct (Z.leb_spec 0 (index (g_GameState s))); [|lia].
  destruct (Z.ltb_spec (index (g_GameState s)) SEQUENCE_CAPACITY); [|lia].
  reflexivity.
Qed.

Lemma addColor_Ret s s' :
  addColor s = Ret tt s' ->
  0 <= index (g_GameState s) < SEQUENCE_CAPACITY /\ s' = after_addColor s.
Proof.
  rewrite addColor_eq.
  destruct (Z.leb_spec 0 (index (g_GameState s)));
    destruct (Z.ltb_spec (index (g_GameState s)) SEQUENCE_CAPACITY);
    simpl; intros Hr; try discriminate.
  injection Hr as <-. split; [lia|reflexivity].
Qed.

Lemma addColor_final s s' :
  final_state (addColor s) = Some s' ->
  0 <= index (g_GameState s) < SEQUENCE_CAPACITY /\ s' = after_addColor s.
Proof.
  intros H. apply addColor_Ret.
  destruct (addColor s) as [[] s1|s1|] eqn:E; simpl in H; try discriminate.
  - congruence.
  - rewrite addColor_eq in E.
    destruct ((0 <=? index (g_GameState s)) && (index (g_GameState s) <? SEQUENCE_CAPACITY));
      discriminate.
Qed.

Lemma index_after_addColor s :
  0 <= index (g_GameState s) < SEQUENCE_CAPACITY ->
  index (g_GameState (after_addColor s)) = index (g_GameState s) + 1.
Proof.
  unfold SEQUENCE_CAPACITY. intros H. simpl. unfold uint8.
  apply Z.mod_small. lia.
Qed.

Lemma live_after_addColor s :
  0 <= index (g_GameState s) < SEQUENCE_CAPACITY ->
  length (sequence (g_GameState s)) = 25%nat ->
  live (g_GameState (after_addColor s))
  = live (g_GameState s) ++ [drawn_color (rng (world s) (rng_calls (world s)))].
Proof.
  intros Hi Hlen. unfold live. rewrite index_after_addColor by exact Hi.
  set (g := g_GameState s) in *. set (c := drawn_color _).
  assert (Hn : (Z.to_nat (index g) < length (sequence g))%nat)
    by (unfold SEQUENCE_CAPACITY in Hi; lia).
  replace (Z.to_nat (index g + 1)) with (S (Z.to_nat (index g))) by lia.
  simpl sequence. fold g. fold c.
  rewrite (take_S_r _ _ c) by (apply list_lookup_insert_eq, Hn).
  rewrite take_insert_ge by lia. reflexivity.
Qed.

(** C4.  In a state whose sequence holds fewer than 25 colours, [addColor]
    returns after storing one colour at position [index] and adding one to
    [index]; the colour is one of Red, Blue, Green and Yellow, never
    [NO_COLOR]; and the draw is uniform: it is made of the generator's value
    so that each of the four colours comes from exactly one of any four
    consecutive values, hence from [m] of the values below [4 * m]. *)
Theorem addColor_appends_random_color :
  (forall s : State,
     let g := g_GameState s in
     0 <= index g < SEQUENCE_CAPACITY ->
     length (sequence g) = 25%nat ->
     exists c s',
       addColor s = Ret tt s'
       /\ c = drawn_color (rng (world s) (rng_calls (world s)))
       /\ In c [RED; BLUE; GREEN; YELLOW]
       /\ c <> NO_COLOR
       /\ sequence (g_GameState s') = <[Z.to_nat (index g) := c]> (sequence g)
       /\ sequence (g_GameState s') !! Z.to_nat (index g) = Some c
       /\ live (g_GameState s') = live g ++ [c]
       /\ index (g_GameState s') = index g + 1)
  /\ (forall (c : Color) (m : nat),
        In c [RED; BLUE; GREEN; YELLOW] -> count_draws c (4 * m) = m).
Proof.
  split.
  - intros s g Hi Hlen. subst g.
    exists (drawn_color (rng (world s) (rng_calls (world s)))), (after_addColor s).
    pose proof (drawn_color_playable (rng (world s) (rng_calls (world s)))) as Hp.
    set (c := drawn_color _) in *.
    set (g := g_GameState s) in *.
    assert (Hn : (Z.to_nat (index g) < length (sequence g))%nat)
      by (unfold SEQUENCE_CAPACITY in Hi; lia).
    split; [apply addColor_in_bounds, Hi|].
    split; [reflexivity|].
    split; [destruct c; simpl; auto; contradiction Hp; reflexivity|].
    split; [exact Hp|].
    split; [reflexivity|].
    split; [apply list_lookup_insert_eq, Hn|].
    split; [|apply index_after_addColor, Hi].
    apply live_after_addColor; assumption.
  - intros c m Hc. apply count_draws_uniform.
    simpl in Hc. intros ->. intuition discriminate.
Qed.

Lemma addColor_appends_random_color_witness :
  let s := initial_State [] (fun _ => 6%N) in
  (exists c s',
     addColor s = Ret tt s'
     /\ c = drawn_color 6
     /\ In c [RED; BLUE; GREEN; YELLOW]
     /\ c <> NO_COLOR
     /\ sequence (g_GameState s') = <[0%nat := c]> (replicate 25 NO_COLOR)
     /\ sequence (g_GameState s') !! 0%nat = Some c
     /\ live (g_GameState s') = [] ++ [c]
     /\ index (g_GameState s') = 0 + 1)
  /\ count_draws GREEN (4 * 3) = 3%nat.
Proof.
  intros s. destruct addColor_appends_random_color as (Hadd & Huni). split.
  - apply (Hadd s); [vm_compute; split; [discriminate|reflexivity]|reflexivity].
  - apply Huni. simpl. auto.
Defined.

(** C7.  [addColor] does not test [index] against the capacity of the
    array.  For an [index] in the range of [uint8_t], the call returns, its
    write inside the array, exactly when [index < 25]; from 25 on the write
    is outside the array and neither [addColor] nor a round started by
    [loop] has a defined outcome: nothing else happens instead. *)
Theorem addColor_unchecked_capacity :
  forall s : State,
    let g := g_GameState s in
    0 <= index g < 256 ->
    ((exists s', addColor s = Ret tt s') <-> index g < SEQUENCE_CAPACITY)
    /\ (addColor s = Ret tt (after_addColor s) \/ addColor s = Undefined)
    /\ (SEQUENCE_CAPACITY <= index g ->
          write_sequence (index g) (drawn_color (rng (world s) (rng_calls (world s)))) s
            = Undefined
          /\ addColor s = Undefined
          /\ (has_lost g = false -> loop s = Undefined)).
Proof.
  intros s g Hu. subst g. unfold SEQUENCE_CAPACITY in *.
  assert (Hw : 25 <= index (g_GameState s) ->
               forall s1, g_GameState s1 = g_GameState s -> addColor s1 = Undefined).
  { intros Hc s1 E. rewrite addColor_eq, E.
    destruct (Z.ltb_spec (index (g_GameState s)) SEQUENCE_CAPACITY) as [Hlt|_];
      [unfold SEQUENCE_CAPACITY in Hlt; lia|].
    rewrite andb_false_r. reflexivity. }
  split; [split|split].
  - intros (s' & H). apply addColor_Ret in H as [H _].
    unfold SEQUENCE_CAPACITY in H. lia.
  - intros H. exists (after_addColor s). apply addColor_in_bounds.
    unfold SEQUENCE_CAPACITY. lia.
  - rewrite addColor_eq.
    destruct ((0 <=? index (g_GameState s)) && (index (g_GameState s) <? SEQUENCE_CAPACITY));
      auto.
  - intros Hc. split; [|split].
    + unfold write_sequence.
      destruct (Z.ltb_spec (index (g_GameState s)) SEQUENCE_CAPACITY) as [Hlt|_];
        [unfold SEQUENCE_CAPACITY in Hlt; lia|].
      rewrite andb_false_r. reflexivity.
    + apply Hw; [exact Hc|reflexivity].
    + intros Hl. unfold loop, bind, get_GameState. rewrite Hl. simpl.
      unfold startNextRound, bind, delay.
      rewrite Hw; [reflexivity|exact Hc|reflexivity].
Qed.

(** ** Playback *)

Lemma lookup_nth {A} (l : list A) (i : nat) (d : A) :
  (i < length l)%nat -> l !! i = Some (nth i l d).
Proof.
  intros H. destruct (nth_lookup_or_length l i d) as [E|E]; [exact E|lia].
Qed.

Lemma emit_nil s : emit [] s = s.
Proof. destruct s as [g b [tp r n tr]]. unfold emit. simpl. rewrite app_nil_r. reflexivity. Qed.

Lemma emit_emit evs1 evs2 s : emit evs2 (emit evs1 s) = emit (evs1 ++ evs2) s.
Proof. unfold emit. simpl. rewrite app_assoc. reflexivity. Qed.

Lemma digitalWrite_emit pin v s : digitalWrite pin v s = Ret tt (emit [EvWrite pin v] s).
Proof. reflexivity. Qed.

Lemma delay_emit ms s : delay ms s = Ret tt (emit [EvDelay ms] s).
Proof. reflexivity. Qed.

Lemma displayColor_emit c s : displayColor c s = Ret tt (emit (pulse c) s).
Proof.
  unfold displayColor, bind. rewrite !digitalWrite_emit, delay_emit, digitalWrite_emit.
  rewrite !emit_emit. destruct c; reflexivity.
Qed.

Lemma playback_cons c cs : playback (c :: cs) = (pulse c ++ [EvDelay 250]) ++ playback cs.
Proof. reflexivity. Qed.

Lemma pins_lit_playback cs : pins_lit (playback cs) = map colorToLED cs.
Proof.
  induction cs as [|c cs IH]; [reflexivity|].
  rewrite playback_cons. unfold pins_lit in *. rewrite omap_app, IH. reflexivity.
Qed.

Lemma displaySequence_from_emit (k : nat) : forall (n : nat) (i : Z) (s : State),
  (k < n)%nat ->
  0 <= i ->
  index (g_GameState s) = i + Z.of_nat k ->
  wf_GameState (g_GameState s) ->
  displaySequence_from n i s
  = Ret tt (emit (playback (take k (drop (Z.to_nat i) (sequence (g_GameState s))))) s).
Proof.
  induction k as [|k IH]; intros n i s Hn Hi Hidx [Hlen Hcap];
    (destruct n as [|n]; [lia|]); simpl displaySequence_from;
    unfold bind at 1, get_GameState at 1.
  - destruct (Z.ltb_spec i (index (g_GameState s))); [lia|].
    rewrite take_0. simpl. rewrite emit_nil. reflexivity.
  - unfold SEQUENCE_CAPACITY in Hcap.
    destruct (Z.ltb_spec i (index (g_GameState s))); [|lia].
    unfold bind at 1, read_sequence at 1.
    destruct (Z.leb_spec 0 i); [|lia].
    destruct (Z.ltb_spec i SEQUENCE_CAPACITY) as [_|Hge];
      [|unfold SEQUENCE_CAPACITY in Hge; lia].
    simpl andb. cbv iota.
    unfold bind at 1. rewrite displayColor_emit.
    unfold bind at 1. rewrite delay_emit, emit_emit.
    assert (Hu : uint8 (i + 1) = i + 1) by (apply Z.mod_small; lia).
    rewrite Hu, IH; [|lia|lia|simpl; lia|split; simpl; [exact Hlen|unfold SEQUENCE_CAPACITY; lia]].
    rewrite emit_emit. simpl g_GameState.
    assert (Hl : sequence (g_GameState s) !! Z.to_nat i
                 = Some (nth (Z.to_nat i) (sequence (g_GameState s)) NO_COLOR)).
    { apply lookup_nth. lia. }
    rewrite (drop_S _ _ _ Hl). rewrite firstn_cons, playback_cons.
    replace (Z.to_nat (i + 1)) with (S (Z.to_nat i)) by lia.
    reflexivity.
Qed.

(** C5.  In a state whose sequence holds [N] colours, [displaySequence]
    returns after logging exactly [N] pulses, the [i]-th on the LED of
    [sequence[i]], each followed by its pause; the globals and the rest of the
    world are as before. *)
Theorem displaySequence_pulses :
  forall (s : State) (N : nat),
    wf_GameState (g_GameState s) ->
    index (g_GameState s) = Z.of_nat N ->
    exists s',
      displaySequence s = Ret tt s'
      /\ trace (world s') = trace (world s) ++ playback (live (g_GameState s))
      /\ length (live (g_GameState s)) = N
      /\ length (pins_lit (playback (live (g_GameState s)))) = N
      /\ (forall i : nat, (i < N)%nat ->
            pins_lit (playback (live (g_GameState s))) !! i
            = Some (colorToLED (nth i (sequence (g_GameState s)) NO_COLOR)))
      /\ g_GameState s' = g_GameState s
      /\ buttons s' = buttons s
      /\ pin_tape (world s') = pin_tape (world s)
      /\ rng_calls (world s') = rng_calls (world s).
Proof.
  intros s N Hwf Hidx.
  pose proof Hwf as [Hlen Hcap]. unfold SEQUENCE_CAPACITY in Hcap.
  exists (emit (playback (live (g_GameState s))) s).
  assert (HN : length (live (g_GameState s)) = N).
  { unfold live. rewrite length_take, Hlen, Hidx. lia. }
  split.
  - unfold displaySequence, live.
    rewrite (displaySequence_from_emit N); [|lia|lia|lia|exact Hwf].
    rewrite Hidx, Nat2Z.id. reflexivity.
  - split; [reflexivity|]. split; [exact HN|].
    rewrite pins_lit_playback, length_map.
    split; [exact HN|]. split; [|repeat split].
    intros i Hi. rewrite list_lookup_fmap.
    unfold live. rewrite lookup_take_lt by lia.
    rewrite (lookup_nth _ _ NO_COLOR) by lia. reflexivity.
Qed.

(** ** Checking the player's inputs *)

Lemma set_has_lost_true s : set_has_lost true s = Ret tt (lose s).
Proof. reflexivity. Qed.

Lemma Color_eqb_eq c1 c2 : Color_eqb c1 c2 = true <-> c1 = c2.
Proof. destruct c1, c2; simpl; split; intros H; try reflexivity; discriminate. Qed.

Lemma getButtonColor_game s c s' :
  getButtonColor s = Ret c s' -> g_GameState s' = g_GameState s.
Proof.
  intros H. apply (getButtonColor_same_game s s'). rewrite H. reflexivity.
Qed.

Lemma readInputs_S n s c s1 cs s2 :
  getButtonColor s = Ret c s1 ->
  readInputs n s1 = Ret cs s2 ->
  readInputs (S n) s = Ret (c :: cs) s2.
Proof.
  intros H1 H2. simpl. unfold bind. rewrite H1, H2. reflexivity.
Qed.

Lemma readInputs_S_inv n s inputs s2 :
  readInputs (S n) s = Ret inputs s2 ->
  exists c s1 cs,
    getButtonColor s = Ret c s1 /\ readInputs n s1 = Ret cs s2 /\ inputs = c :: cs.
Proof.
  simpl. intros H.
  apply bind_Ret in H as (c & s1 & Hc & H).
  apply bind_Ret in H as (cs & s2' & Hcs & H).
  injection H as <- <-. eauto 6.
Qed.

(** One turn of the input loop. *)
Lemma checkInputs_from_step n j s :
  checkInputs_from (S n) j s =
  if j <? index (g_GameState s) then
    match getButtonColor s with
    | Ret c s1 =>
        if (0 <=? j) && (j <? SEQUENCE_CAPACITY) then
          if Color_eqb c (nth (Z.to_nat j) (sequence (g_GameState s1)) NO_COLOR)
          then checkInputs_from n (uint8 (j + 1)) s1
          else Ret tt (lose s1)
        else Undefined
    | Blocked s1 => Blocked s1
    | Undefined => Undefined
    end
  else Ret tt s.
Proof.
  simpl. unfold bind at 1, get_GameState at 1.
  destruct (j <? index (g_GameState s)); [|reflexivity].
  unfold bind at 1. destruct (getButtonColor s) as [c s1|s1|]; try reflexivity.
  unfold bind at 1, read_sequence at 1.
  destruct ((0 <=? j) && (j <? SEQUENCE_CAPACITY)); [|reflexivity].
  destruct (Color_eqb c _); reflexivity.
Qed.

(** The input loop from position [j], with [m] positions left: it follows
    the inputs up to the first that differs and stops there. *)
Lemma checkInputs_from_inputs (m : nat) :
  forall (n : nat) (j : Z) (s : State) (inputs : list Color) (s_all : State),
    (m < n)%nat ->
    0 <= j ->
    index (g_GameState s) = j + Z.of_nat m ->
    wf_GameState (g_GameState s) ->
    readInputs m s = Ret inputs s_all ->
    let expected := take m (drop (Z.to_nat j) (sequence (g_GameState s))) in
    ((forall i, (i < m)%nat -> inputs !! i = expected !! i) ->
       checkInputs_from n j s = Ret tt s_all)
    /\ (forall k, (k < m)%nat ->
          (forall i, (i < k)%nat -> inputs !! i = expected !! i) ->
          inputs !! k <> expected !! k ->
          exists s_k,
            readInputs (S k) s = Ret (take (S k) inputs) s_k
            /\ checkInputs_from n j s = Ret tt (lose s_k)
            /\ readInputs (m - S k) s_k = Ret (drop (S k) inputs) s_all).
Proof.
  induction m as [|m IH]; intros n j s inputs s_all Hn Hj Hidx Hwf Hread expected;
    (destruct n as [|n]; [lia|]); rewrite checkInputs_from_step.
  - injection Hread as <- <-.
    destruct (Z.ltb_spec j (index (g_GameState s))); [lia|].
    split; [reflexivity|]. intros k Hk. lia.
  - pose proof Hwf as [Hlen Hcap]. unfold SEQUENCE_CAPACITY in Hcap.
    destruct (Z.ltb_spec j (index (g_GameState s))); [|lia].
    apply readInputs_S_inv in Hread as (c & s1 & cs & Hc & Hcs & ->).
    pose proof (getButtonColor_game _ _ _ Hc) as Hg.
    rewrite Hc.
    destruct (Z.leb_spec 0 j); [|lia].
    destruct (Z.ltb_spec j SEQUENCE_CAPACITY) as [_|Hge];
      [|unfold SEQUENCE_CAPACITY in Hge; lia].
    simpl andb. cbv iota. rewrite Hg.
    set (e := nth (Z.to_nat j) (sequence (g_GameState s)) NO_COLOR).
    assert (Hl : sequence (g_GameState s) !! Z.to_nat j = Some e)
      by (apply lookup_nth; lia).
    assert (He : expected
                 = e :: take m (drop (Z.to_nat (j + 1)) (sequence (g_GameState s)))).
    { unfold expected. rewrite (drop_S _ _ _ Hl), firstn_cons.
      replace (Z.to_nat (j + 1)) with (S (Z.to_nat j)) by lia. reflexivity. }
    assert (Hu : uint8 (j + 1) = j + 1) by (apply Z.mod_small; lia).
    rewrite Hu.
    assert (Hwf1 : wf_GameState (g_GameState s1)) by (rewrite Hg; exact Hwf).
    destruct (IH n (j + 1) s1 cs s_all) as [IH1 IH2];
      [lia|lia|rewrite Hg; lia|exact Hwf1|exact Hcs|].
    rewrite Hg in IH1, IH2. rewrite He. split.
    + intros Hall.
      assert (c = e) as -> by (specialize (Hall 0%nat ltac:(lia)); simpl in Hall; congruence).
      replace (Color_eqb e e) with true by (symmetry; apply Color_eqb_eq; reflexivity).
      apply IH1.
      intros i Hi. apply (Hall (S i)). lia.
    + intros [|k] Hk Hbefore Hdiff.
      * exists s1. simpl in Hdiff.
        destruct (Color_eqb c e) eqn:E;
          [apply Color_eqb_eq in E; congruence|].
        split; [|split; [reflexivity|]].
        -- apply readInputs_S with s1; [exact Hc|reflexivity].
        -- replace (S m - 1)%nat with m by lia. exact Hcs.
      * assert (c = e) as ->
          by (specialize (Hbefore 0%nat ltac:(lia)); simpl in Hbefore; congruence).
        replace (Color_eqb e e) with true by (symmetry; apply Color_eqb_eq; reflexivity).
        destruct (IH2 k) as (s_k & Hr & Hchk & Hrest); [lia| |exact Hdiff|].
        { intros i Hi. apply (Hbefore (S i)). lia. }
        exists s_k. split; [|split; [exact Hchk|exact Hrest]].
        rewrite firstn_cons. apply readInputs_S with s1; [exact Hc|exact Hr].
Qed.

(** On a tape that starts with clean presses of playable colours, the
    inputs read are those colours, and the tape is left after the presses. *)
Lemma readInputs_presses (cs : list Color) :
  Forall playable cs ->
  forall g b rest r n tr,
  exists b' tr',
    readInputs (length cs) (mkState g b (mkWorld (presses cs ++ rest) r n tr))
    = Ret cs (mkState g b' (mkWorld rest r n tr')).
Proof.
  induction 1 as [|c cs Hc _ IH]; intros g b rest r n tr.
  - exists b, tr. reflexivity.
  - change (presses (c :: cs) ++ rest) with (press c ++ (presses cs ++ rest)).
    destruct (IH g (sampled c) rest r n
                 (tr ++ [EvWrite (colorToLED c) HIGH; EvWrite (colorToLED c) LOW]))
      as (b' & tr' & Hr).
    exists b', tr'. simpl length.
    eapply readInputs_S; [apply getButtonColor_press, Hc|exact Hr].
Qed.

(** C1.  Take a state whose sequence holds [N] colours and a player whose
    next [N] inputs are [inputs].  If the first input that differs from the
    stored sequence is at position [k], the input loop of [startNextRound]
    returns in the state reached after exactly [k + 1] inputs were read, with
    [has_lost] set and nothing else done: the inputs at positions [k + 1]
    to [N - 1] are still to be read.  If no input differs, the loop returns
    after the [N] inputs with the game state, [has_lost] included, as it
    was. *)
Theorem checkInputs_first_mismatch :
  forall (s : State) (N : nat) (inputs : list Color) (s_all : State),
    wf_GameState (g_GameState s) ->
    index (g_GameState s) = Z.of_nat N ->
    readInputs N s = Ret inputs s_all ->
    (forall k : nat,
       (k < N)%nat ->
       (forall i, (i < k)%nat -> inputs !! i = sequence (g_GameState s) !! i) ->
       inputs !! k <> sequence (g_GameState s) !! k ->
       exists s_k,
         readInputs (S k) s = Ret (take (S k) inputs) s_k
         /\ checkInputs s = Ret tt (lose s_k)
         /\ has_lost (g_GameState (lose s_k)) = true
         /\ world (lose s_k) = world s_k
         /\ readInputs (N - S k) s_k = Ret (drop (S k) inputs) s_all)
    /\ ((forall i, (i < N)%nat -> inputs !! i = sequence (g_GameState s) !! i) ->
        checkInputs s = Ret tt s_all /\ g_GameState s_all = g_GameState s).
Proof.
  intros s N inputs s_all Hwf Hidx Hread.
  pose proof Hwf as [Hlen Hcap]. unfold SEQUENCE_CAPACITY in Hcap.
  destruct (checkInputs_from_inputs N 256 0 s inputs s_all) as [Hall Hmis];
    [lia|lia|lia|exact Hwf|exact Hread|].
  simpl Z.to_nat in Hall, Hmis. rewrite drop_0 in Hall, Hmis.
  split.
  - intros k Hk Hbefore Hdiff.
    destruct (Hmis k Hk) as (s_k & Hr & Hchk & Hrest).
    + intros i Hi. rewrite lookup_take_lt by lia. apply Hbefore, Hi.
    + rewrite lookup_take_lt by lia. exact Hdiff.
    + exists s_k. repeat split; assumption.
  - intros Hsame. split.
    + apply Hall. intros i Hi. rewrite lookup_take_lt by lia. apply Hsame, Hi.
    + apply (readInputs_same_game N s s_all). rewrite Hread. reflexivity.
Qed.

(** The sequence is Red, Blue, Green; the player presses Red, Yellow and
    would press Green: the loop stops after Yellow and the press of Green
    stays on the tape. *)
Lemma checkInputs_first_mismatch_witness :
  let s := mkState (mkGameState false ([RED; BLUE; GREEN] ++ replicate 22 NO_COLOR) 3)
                   initial_ButtonStates
                   (mkWorld (presses [RED; YELLOW; GREEN]) (fun _ => 0%N) 0 []) in
  exists s_k,
    readInputs 2 s = Ret [RED; YELLOW] s_k
    /\ checkInputs s = Ret tt (lose s_k)
    /\ has_lost (g_GameState (lose s_k)) = true
    /\ world (lose s_k) = world s_k
    /\ readInputs 1 s_k = Ret [GREEN] (emit [EvWrite GREEN_LED HIGH; EvWrite GREEN_LED LOW]
                                         (mkState (g_GameState s_k) (sampled GREEN)
                                            (mkWorld [] (fun _ => 0%N) 0 (trace (world s_k))))).
Proof.
  intros s.
  assert (Hread : exists s_all, readInputs 3 s = Ret [RED; YELLOW; GREEN] s_all)
    by (eexists; vm_compute; reflexivity).
  destruct Hread as (s_all & Hread).
  destruct (checkInputs_first_mismatch s 3 [RED; YELLOW; GREEN] s_all) as [Hmis _].
  - split; [reflexivity|]. vm_compute. split; discriminate.
  - reflexivity.
  - exact Hread.
  - destruct (Hmis 1%nat) as (s_k & Hr & Hchk & Hlost & Hw & Hrest).
    + lia.
    + intros [|i] Hi; [reflexivity|lia].
    + discriminate.
    + exists s_k. split; [exact Hr|]. split; [exact Hchk|].
      split; [exact Hlost|]. split; [exact Hw|].
      vm_compute in Hr. injection Hr as <-. vm_compute. reflexivity.
Defined.

(** ** A round and the main loop *)

Lemma only_loses_refl s : only_loses s s.
Proof. unfold only_loses. auto. Qed.

Lemma only_loses_trans s1 s2 s3 :
  only_loses s1 s2 -> only_loses s2 s3 -> only_loses s1 s3.
Proof.
  unfold only_loses. intros (E1 & E2 & E3) (F1 & F2 & F3).
  repeat split; [congruence|congruence|auto].
Qed.

Lemma preserves_weaken (P Q : State -> State -> Prop) {A} (m : M A) :
  (forall s s', P s s' -> Q s s') -> preserves P m -> preserves Q m.
Proof. intros HPQ Hm s s' H. apply HPQ, Hm, H. Qed.

Lemma only_loses_of_same_game {A} (m : M A) :
  preserves same_game m -> preserves only_loses m.
Proof.
  apply preserves_weaken. unfold same_game, only_loses.
  intros s s' ->. auto.
Qed.

Lemma set_has_lost_only_loses : preserves only_loses (set_has_lost true).
Proof. intros s s' [= <-]. unfold only_loses. simpl. auto. Qed.

Ltac keeps_sequence :=
  repeat match goal with
         | |- preserves _ (ret _) => apply (preserves_ret _ only_loses_refl)
         | |- preserves _ (set_has_lost true) => apply set_has_lost_only_loses
         | |- preserves _ (bind _ _) =>
             apply (preserves_bind _ only_loses_trans); [|intros ?]
         | |- preserves _ (if _ then _ else _) => apply preserves_if
         | |- _ => solve [apply only_loses_of_same_game; auto with frame]
         end.

Lemma checkInputs_from_only_loses n : forall j, preserves only_loses (checkInputs_from n j).
Proof.
  induction n as [|n IH]; intros j; cbn [checkInputs_from]; keeps_sequence.
  apply IH.
Qed.

Lemma checkInputs_only_loses : preserves only_loses checkInputs.
Proof. apply checkInputs_from_only_loses. Qed.

Lemma after_input_only_loses :
  preserves only_loses (displaySequence ;; delay 1500 ;; checkInputs).
Proof.
  apply (preserves_bind _ only_loses_trans);
    [apply only_loses_of_same_game, displaySequence_same_game|intros _].
  apply (preserves_bind _ only_loses_trans);
    [apply only_loses_of_same_game, delay_same_game|intros _].
  apply checkInputs_from_only_loses.
Qed.

(** A round that stops somewhere has extended the sequence, and has done
    nothing else to the game state but, possibly, raise [has_lost]. *)
Lemma startNextRound_final s s' :
  final_state (startNextRound s) = Some s' ->
  0 <= index (g_GameState s) < SEQUENCE_CAPACITY
  /\ only_loses (after_addColor (emit [EvDelay 250] s)) s'.
Proof.
  unfold startNextRound. unfold bind at 1. rewrite delay_emit.
  intros H. apply bind_final in H as [([] & s1 & Ha & H)|Hb].
  - apply addColor_Ret in Ha as [Hi ->]. split; [exact Hi|].
    apply (after_input_only_loses _ _ H).
  - rewrite addColor_eq in Hb.
    destruct ((0 <=? _) && _) in Hb; discriminate.
Qed.

Lemma showLoss_emit s : showLoss s = Ret tt (emit loss_animation s).
Proof.
  unfold showLoss, bind. rewrite !digitalWrite_emit, !delay_emit.
  repeat rewrite ?digitalWrite_emit, ?delay_emit, ?emit_emit. reflexivity.
Qed.

Lemma loop_lost s :
  has_lost (g_GameState s) = true -> loop s = Ret tt (emit loss_animation s).
Proof.
  intros H. unfold loop, bind, get_GameState. rewrite H. apply showLoss_emit.
Qed.

Lemma loop_playing s :
  has_lost (g_GameState s) = false -> loop s = startNextRound s.
Proof.
  intros H. unfold loop, bind, get_GameState. rewrite H. reflexivity.
Qed.

Lemma loops_lost n : forall s,
  has_lost (g_GameState s) = true ->
  loops n s = Ret tt (emit (concat (replicate n loss_animation)) s).
Proof.
  induction n as [|n IH]; intros s H; simpl loops.
  - simpl. rewrite emit_nil. reflexivity.
  - unfold bind. rewrite (loop_lost s H), IH by exact H.
    rewrite emit_emit. reflexivity.
Qed.

(** C2.  Once [has_lost] is true, every iteration of [loop] is a call of
    [showLoss] that returns: after any number [n] of further iterations the
    log has grown by [n] loss animations and nothing else has changed, so
    [has_lost] is still true and [sequence] and [index] are as they were. *)
Theorem lost_is_terminal :
  forall (s : State) (n : nat),
    has_lost (g_GameState s) = true ->
    loop s = showLoss s
    /\ exists s',
         loops n s = Ret tt s'
         /\ g_GameState s' = g_GameState s
         /\ has_lost (g_GameState s') = true
         /\ buttons s' = buttons s
         /\ pin_tape (world s') = pin_tape (world s)
         /\ rng_calls (world s') = rng_calls (world s)
         /\ trace (world s') = trace (world s) ++ concat (replicate n loss_animation).
Proof.
  intros s n H. split.
  - rewrite loop_lost, showLoss_emit by exact H. reflexivity.
  - exists (emit (concat (replicate n loss_animation)) s).
    split; [apply loops_lost, H|]. repeat split. exact H.
Qed.

Lemma lost_is_terminal_witness :
  let s := lose (initial_State [] (fun _ => 0%N)) in
  loop s = showLoss s
  /\ exists s',
       loops 3 s = Ret tt s'
       /\ g_GameState s' = g_GameState s
       /\ has_lost (g_GameState s') = true
       /\ buttons s' = buttons s
       /\ pin_tape (world s') = pin_tape (world s)
       /\ rng_calls (world s') = rng_calls (world s)
       /\ trace (world s') = trace (world s) ++ concat (replicate 3 loss_animation).
Proof.
  intros s. apply (lost_is_terminal s 3). reflexivity.
Defined.

(** ** The invariant of the game state *)

Lemma Inv_initial : Inv initial_GameState.
Proof.
  split; [split; [reflexivity|unfold SEQUENCE_CAPACITY; simpl; lia]|].
  unfold live. simpl. constructor.
Qed.

Lemma Inv_after_addColor s :
  0 <= index (g_GameState s) < SEQUENCE_CAPACITY ->
  Inv (g_GameState s) -> Inv (g_GameState (after_addColor s)).
Proof.
  intros Hi [[Hlen Hcap] Hplay]. split; [split|].
  - simpl. rewrite length_insert. exact Hlen.
  - rewrite index_after_addColor by exact Hi. lia.
  - rewrite live_after_addColor by assumption.
    apply Forall_app. split; [exact Hplay|].
    constructor; [apply drawn_color_playable|constructor].
Qed.

Lemma Inv_only_loses s s' :
  only_loses s s' -> Inv (g_GameState s) -> Inv (g_GameState s').
Proof.
  unfold only_loses, Inv, wf_GameState, live.
  intros (-> & -> & _). auto.
Qed.

Lemma Inv_same_game s s' :
  same_game s s' -> Inv (g_GameState s) -> Inv (g_GameState s').
Proof. unfold same_game. intros ->. auto. Qed.

Lemma startNextRound_Inv s s' :
  final_state (startNextRound s) = Some s' ->
  Inv (g_GameState s) -> Inv (g_GameState s').
Proof.
  intros H HI. apply startNextRound_final in H as [Hi Hl].
  apply (Inv_only_loses _ _ Hl). apply Inv_after_addColor; assumption.
Qed.

Lemma loop_final s s' :
  final_state (loop s) = Some s' ->
  (has_lost (g_GameState s) = true /\ s' = emit loss_animation s)
  \/ (has_lost (g_GameState s) = false
      /\ 0 <= index (g_GameState s) < SEQUENCE_CAPACITY
      /\ only_loses (after_addColor (emit [EvDelay 250] s)) s').
Proof.
  destruct (has_lost (g_GameState s)) eqn:E; intros H.
  - left. rewrite (loop_lost _ E) in H. injection H as <-. auto.
  - right. rewrite (loop_playing _ E) in H.
    apply startNextRound_final in H. tauto.
Qed.

Lemma loop_Inv s s' :
  final_state (loop s) = Some s' -> Inv (g_GameState s) -> Inv (g_GameState s').
Proof.
  intros H HI. apply loop_final in H as [[_ ->]|(_ & Hi & Hl)].
  - exact HI.
  - apply (Inv_only_loses _ _ Hl). apply Inv_after_addColor; assumption.
Qed.

(** A round played to its end, or as far as the tape goes, has added one to
    [index]. *)
Lemma loop_index s s' :
  has_lost (g_GameState s) = false ->
  final_state (loop s) = Some s' ->
  index (g_GameState s') = index (g_GameState s) + 1.
Proof.
  intros E H. apply loop_final in H as [[E' _]|(_ & Hi & (_ & Hidx & _))];
    [congruence|].
  rewrite Hidx. apply (index_after_addColor (emit [EvDelay 250] s)), Hi.
Qed.

Lemma loop_stays_lost s s' :
  has_lost (g_GameState s) = true ->
  final_state (loop s) = Some s' ->
  has_lost (g_GameState s') = true.
Proof.
  intros E H. rewrite (loop_lost _ E) in H. injection H as <-. exact E.
Qed.

(** Rounds that end with [has_lost] false were all played and won. *)
Lemma loops_won (N : nat) : forall s s',
  loops N s = Ret tt s' ->
  has_lost (g_GameState s') = false ->
  has_lost (g_GameState s) = false
  /\ index (g_GameState s') = index (g_GameState s) + Z.of_nat N.
Proof.
  induction N as [|N IH]; intros s s' H Hw.
  - injection H as <-. split; [exact Hw|lia].
  - simpl in H. apply bind_Ret in H as ([] & s1 & H1 & H).
    destruct (IH _ _ H Hw) as [Hw1 Hidx].
    assert (F : final_state (loop s) = Some s1) by (rewrite H1; reflexivity).
    destruct (has_lost (g_GameState s)) eqn:E.
    + rewrite (loop_stays_lost _ _ E F) in Hw1. discriminate.
    + split; [reflexivity|]. rewrite Hidx, (loop_index _ _ E F). lia.
Qed.

Lemma loops_Inv (N : nat) : forall s s',
  final_state (loops N s) = Some s' -> Inv (g_GameState s) -> Inv (g_GameState s').
Proof.
  induction N as [|N IH]; intros s s' H HI.
  - injection H as <-. exact HI.
  - simpl in H. apply bind_final in H as [([] & s1 & H1 & H)|Hb].
    + apply (IH _ _ H). apply (loop_Inv s); [rewrite H1; reflexivity|exact HI].
    + apply (loop_Inv s); [rewrite Hb; reflexivity|exact HI].
Qed.

(** C3.  After [n] iterations of [loop] from power-on that leave [has_lost]
    false, that is after [n] rounds won, [index] is [n] and the sequence
    holds [n] colours ([n] is then at most 25); and one round adds exactly one to [index], whatever
    its outcome. *)
Theorem index_after_rounds_won :
  (forall (n : nat) (tape : list Lines) (r : nat -> N) (s' : State),
     loops n (initial_State tape r) = Ret tt s' ->
     has_lost (g_GameState s') = false ->
     index (g_GameState s') = Z.of_nat n
     /\ length (live (g_GameState s')) = n
     /\ (n <= 25)%nat)
  /\ (forall s s' : State,
        has_lost (g_GameState s) = false ->
        final_state (loop s) = Some s' ->
        index (g_GameState s') = index (g_GameState s) + 1).
Proof.
  split.
  - intros N tape r s' H Hw.
    destruct (loops_won N _ _ H Hw) as [_ Hidx]. simpl in Hidx.
    split; [exact Hidx|].
    assert (HI : Inv (g_GameState s')).
    { apply (loops_Inv N (initial_State tape r)); [rewrite H; reflexivity|].
      apply Inv_initial. }
    destruct HI as [[Hlen Hcap] _]. unfold SEQUENCE_CAPACITY in Hcap.
    split; [|lia].
    unfold live. rewrite length_take, Hlen, Hidx. lia.
  - exact loop_index.
Qed.

(** Two rounds won: the draws 0 and 1 give Red then Blue. *)
Lemma index_after_rounds_won_witness :
  let s := initial_State (presses [RED; RED; BLUE]) (fun n => N.of_nat n) in
  exists s',
    loops 2 s = Ret tt s'
    /\ has_lost (g_GameState s') = false
    /\ index (g_GameState s') = 2
    /\ length (live (g_GameState s')) = 2%nat
    /\ live (g_GameState s') = [RED; BLUE].
Proof.
  intros s.
  assert (H : exists s', loops 2 s = Ret tt s'
                         /\ has_lost (g_GameState s') = false
                         /\ live (g_GameState s') = [RED; BLUE])
    by (eexists; vm_compute; repeat split).
  destruct H as (s' & H & Hw & Hl).
  destruct index_after_rounds_won as [Hthm _].
  destruct (Hthm 2%nat _ _ s' H Hw) as (Hidx & Hlen & _).
  exists s'. repeat split; assumption.
Defined.

(** ** The sequence is written by [addColor] only *)

Lemma getButtonColor_unit_only_loses : preserves only_loses (getButtonColor ;; ret tt).
Proof. keeps_sequence. Qed.

Lemma showLoss_only_loses : preserves only_loses showLoss.
Proof. apply only_loses_of_same_game, showLoss_same_game. Qed.

(** C8.  In a state with [index = n < 25], [addColor] returns with
    [has_lost] and every element of [sequence] other than the [n]-th as they
    were, in particular the first [n], and with [index = n + 1].  The other
    operations of the main loop (playback, reading an input, the input loop,
    the loss animation, the delays) leave [sequence] and [index] as they
    were, so that a round changes [sequence] by its one call of [addColor]
    and an iteration of [loop] in the lost state does not change it. *)
Theorem sequence_append_only :
  (forall (s : State) (n : Z),
     index (g_GameState s) = n ->
     0 <= n < SEQUENCE_CAPACITY ->
     exists s',
       addColor s = Ret tt s'
       /\ has_lost (g_GameState s') = has_lost (g_GameState s)
       /\ (forall i : nat, i <> Z.to_nat n ->
             sequence (g_GameState s') !! i = sequence (g_GameState s) !! i)
       /\ take (Z.to_nat n) (sequence (g_GameState s'))
          = take (Z.to_nat n) (sequence (g_GameState s))
       /\ length (sequence (g_GameState s')) = length (sequence (g_GameState s))
       /\ index (g_GameState s') = n + 1)
  /\ Forall (fun op : M unit =>
               forall s s', final_state (op s) = Some s' ->
                 sequence (g_GameState s') = sequence (g_GameState s)
                 /\ index (g_GameState s') = index (g_GameState s))
            [displaySequence; getButtonColor ;; ret tt; checkInputs; showLoss;
             delay 250; delay 1500]
  /\ (forall s s',
        final_state (startNextRound s) = Some s' ->
        sequence (g_GameState s') = sequence (g_GameState (after_addColor s)))
  /\ (forall s s',
        final_state (loop s) = Some s' ->
        sequence (g_GameState s')
        = if has_lost (g_GameState s) then sequence (g_GameState s)
          else sequence (g_GameState (after_addColor s))).
Proof.
  split; [|split; [|split]].
  - intros s n Hn Hi. subst n. exists (after_addColor s).
    split; [apply addColor_in_bounds, Hi|].
    split; [reflexivity|].
    split; [intros i Hne; simpl; apply list_lookup_insert_ne; congruence|].
    split; [simpl; apply take_insert_ge; lia|].
    split; [simpl; apply length_insert|].
    apply index_after_addColor, Hi.
  - assert (W : forall op : M unit, preserves only_loses op ->
                forall s s', final_state (op s) = Some s' ->
                  sequence (g_GameState s') = sequence (g_GameState s)
                  /\ index (g_GameState s') = index (g_GameState s)).
    { intros op Hop s s' H. destruct (Hop s s' H) as (E1 & E2 & _). auto. }
    constructor; [apply W, only_loses_of_same_game, displaySequence_same_game|].
    constructor; [apply W, getButtonColor_unit_only_loses|].
    constructor; [apply W, checkInputs_only_loses|].
    constructor; [apply W, showLoss_only_loses|].
    constructor; [apply W, only_loses_of_same_game, delay_same_game|].
    constructor; [apply W, only_loses_of_same_game, delay_same_game|].
    constructor.
  - intros s s' H. apply startNextRound_final in H as [_ (E & _)].
    rewrite E. reflexivity.
  - intros s s' H. apply loop_final in H as [[-> ->]|(-> & _ & (E & _))].
    + reflexivity.
    + rewrite E. reflexivity.
Qed.

Lemma sequence_append_only_witness :
  let s := mkState (mkGameState false ([RED; BLUE] ++ replicate 23 NO_COLOR) 2)
                   initial_ButtonStates (mkWorld [] (fun _ => 3%N) 0 []) in
  exists s',
    addColor s = Ret tt s'
    /\ has_lost (g_GameState s') = false
    /\ (forall i : nat, i <> 2%nat ->
          sequence (g_GameState s') !! i = sequence (g_GameState s) !! i)
    /\ take 2 (sequence (g_GameState s')) = [RED; BLUE]
    /\ length (sequence (g_GameState s')) = 25%nat
    /\ index (g_GameState s') = 3.
Proof.
  intros s. destruct sequence_append_only as (H & _).
  apply (H s 2); [reflexivity|unfold SEQUENCE_CAPACITY; lia].
Defined.

(** ** States the game can be in *)

Lemma reachable_Inv s : reachable s -> Inv (g_GameState s).
Proof.
  induction 1 as [tape r|s op s' _ IH Hop H].
  - apply Inv_initial.
  - simpl in Hop.
    destruct Hop as [<-|[<-|[<-|[<-|[<-|[<-|[<-|[]]]]]]]].
    + apply addColor_final in H as [Hi ->]. apply Inv_after_addColor; assumption.
    + apply (Inv_same_game s); [apply displaySequence_same_game, H|exact IH].
    + apply (Inv_only_loses s); [apply getButtonColor_unit_only_loses, H|exact IH].
    + apply (Inv_only_loses s); [apply checkInputs_only_loses, H|exact IH].
    + apply (startNextRound_Inv s); assumption.
    + apply (Inv_same_game s); [apply showLoss_same_game, H|exact IH].
    + apply (loop_Inv s); assumption.
Qed.

Lemma colorToLED_playable c : playable c -> In (colorToLED c) LED_pins.
Proof.
  destruct c; intros H; [contradiction H; reflexivity|..]; simpl; auto 6.
Qed.

(** C9.  In every state the game can be in, [index] is at most 25 and each
    element of [sequence] below [index] is one of Red, Blue, Green and
    Yellow; [displaySequence] then returns having lit LED pins only, never
    the pin 0 that [displayColor] keeps for any other colour. *)
Theorem live_sequence_playable :
  forall s : State,
    reachable s ->
    0 <= index (g_GameState s) <= SEQUENCE_CAPACITY
    /\ (forall i : nat,
          Z.of_nat i < index (g_GameState s) ->
          exists c,
            sequence (g_GameState s) !! i = Some c
            /\ In c [RED; BLUE; GREEN; YELLOW] /\ c <> NO_COLOR)
    /\ exists s',
         displaySequence s = Ret tt s'
         /\ trace (world s') = trace (world s) ++ playback (live (g_GameState s))
         /\ Forall (fun pin => In pin LED_pins /\ pin <> 0)
                   (pins_lit (playback (live (g_GameState s)))).
Proof.
  intros s Hr. apply reachable_Inv in Hr as [Hwf Hplay].
  pose proof Hwf as [Hlen Hcap]. split; [exact Hcap|]. split.
  - intros i Hi. unfold SEQUENCE_CAPACITY in Hcap.
    exists (nth i (sequence (g_GameState s)) NO_COLOR).
    assert (Hl : live (g_GameState s) !! i
                 = Some (nth i (sequence (g_GameState s)) NO_COLOR)).
    { unfold live. rewrite lookup_take_lt by lia. apply lookup_nth. lia. }
    split; [apply lookup_nth; lia|].
    rewrite Forall_lookup in Hplay. specialize (Hplay _ _ Hl).
    split; [|exact Hplay].
    destruct (nth i (sequence (g_GameState s)) NO_COLOR);
      [contradiction Hplay; reflexivity|..]; simpl; auto 6.
  - exists (emit (playback (live (g_GameState s))) s). split; [|split].
    + unfold displaySequence, live. unfold SEQUENCE_CAPACITY in Hcap.
      rewrite (displaySequence_from_emit (Z.to_nat (index (g_GameState s))));
        [reflexivity|lia|lia|lia|exact Hwf].
    + reflexivity.
    + rewrite pins_lit_playback. apply Forall_fmap.
      eapply Forall_impl; [exact Hplay|]. intros c Hc. simpl.
      split; [apply colorToLED_playable, Hc|]. destruct c; try discriminate.
      contradiction Hc. reflexivity.
Qed.

(** ** A player who makes no mistake *)

(** A round whose tape holds clean presses of the whole sequence, new colour
    included, is won, and leaves the tape after those presses. *)
Lemma loop_won s rest :
  Inv (g_GameState s) ->
  has_lost (g_GameState s) = false ->
  index (g_GameState s) < SEQUENCE_CAPACITY ->
  pin_tape (world s)
  = presses (live (g_GameState s) ++ [drawn_color (rng (world s) (rng_calls (world s)))])
    ++ rest ->
  exists s',
    loop s = Ret tt s'
    /\ g_GameState s' = g_GameState (after_addColor s)
    /\ pin_tape (world s') = rest
    /\ rng (world s') = rng (world s)
    /\ rng_calls (world s') = S (rng_calls (world s)).
Proof.
  intros HI Hw Hi Htape.
  pose proof HI as [[Hlen Hcap] _].
  assert (Hb : 0 <= index (g_GameState s) < SEQUENCE_CAPACITY) by lia.
  rewrite (loop_playing _ Hw). unfold startNextRound.
  unfold bind at 1. rewrite delay_emit.
  set (s0 := emit [EvDelay 250] s).
  unfold bind at 1. rewrite (addColor_in_bounds s0) by exact Hb.
  set (s1 := after_addColor s0).
  assert (HI1 : Inv (g_GameState s1)) by (apply Inv_after_addColor; assumption).
  assert (Hidx1 : index (g_GameState s1) = index (g_GameState s) + 1)
    by (apply (index_after_addColor s0), Hb).
  assert (Hlive1 : live (g_GameState s1)
                   = live (g_GameState s)
                     ++ [drawn_color (rng (world s) (rng_calls (world s)))])
    by (apply (live_after_addColor s0); assumption).
  pose proof HI1 as [Hwf1 Hplay1].
  set (N := Z.to_nat (index (g_GameState s1))).
  unfold bind at 1. unfold displaySequence.
  rewrite (displaySequence_from_emit N); [|unfold SEQUENCE_CAPACITY in *; lia|lia|lia|exact Hwf1].
  unfold bind at 1. rewrite delay_emit, emit_emit.
  match goal with |- context [checkInputs ?x] => set (s3 := x) end.
  assert (Hg3 : g_GameState s3 = g_GameState s1) by reflexivity.
  assert (HlenN : length (live (g_GameState s1)) = N).
  { unfold live. destruct Hwf1 as [Hl1 Hc1]. unfold SEQUENCE_CAPACITY in Hc1.
    rewrite length_take, Hl1. lia. }
  destruct (readInputs_presses (live (g_GameState s1)) Hplay1
              (g_GameState s1) (buttons s3) rest (rng (world s3))
              (rng_calls (world s3)) (trace (world s3))) as (b' & tr' & Hread).
  rewrite HlenN in Hread.
  assert (Es3 : mkState (g_GameState s1) (buttons s3)
                  (mkWorld (presses (live (g_GameState s1)) ++ rest) (rng (world s3))
                     (rng_calls (world s3)) (trace (world s3))) = s3).
  { rewrite Hlive1, <- Htape. reflexivity. }
  rewrite Es3 in Hread.
  destruct (checkInputs_from_inputs N 256 0 s3 _ _
              ltac:(unfold SEQUENCE_CAPACITY in *; lia) ltac:(lia)
              ltac:(rewrite Hg3; lia) ltac:(rewrite Hg3; exact Hwf1) Hread) as [Hall _].
  eexists. split.
  - apply Hall. intros i _. rewrite Hg3. reflexivity.
  - simpl. auto.
Qed.

Lemma perfect_tape_S r j m :
  perfect_tape r j (S m) = presses (colors r (S j)) ++ perfect_tape r (S j) m.
Proof. reflexivity. Qed.

Lemma perfect_rounds (r : nat -> N) (m : nat) : forall (j : nat) (s : State) rest,
  (j + m <= 25)%nat ->
  Inv (g_GameState s) ->
  has_lost (g_GameState s) = false ->
  index (g_GameState s) = Z.of_nat j ->
  live (g_GameState s) = colors r j ->
  rng (world s) = r ->
  rng_calls (world s) = j ->
  pin_tape (world s) = perfect_tape r j m ++ rest ->
  exists s',
    loops m s = Ret tt s'
    /\ has_lost (g_GameState s') = false
    /\ index (g_GameState s') = Z.of_nat (j + m)
    /\ live (g_GameState s') = colors r (j + m)
    /\ pin_tape (world s') = rest.
Proof.
  induction m as [|m IH]; intros j s rest Hjm HI Hw Hidx Hlive Hr Hn Htape.
  - exists s. rewrite Nat.add_0_r. simpl in Htape. auto.
  - assert (Hc : colors r (S j) = live (g_GameState s)
                                  ++ [drawn_color (rng (world s) (rng_calls (world s)))]).
    { unfold colors. rewrite seq_S, map_app, Hlive, Hr, Hn. reflexivity. }
    destruct (loop_won s (perfect_tape r (S j) m ++ rest)) as (s1 & H1 & Hg & Ht & Hr1 & Hn1);
      [exact HI|exact Hw|unfold SEQUENCE_CAPACITY; lia| |].
    { rewrite Htape, <- Hc, perfect_tape_S, <- app_assoc. reflexivity. }
    assert (Hb : 0 <= index (g_GameState s) < SEQUENCE_CAPACITY)
      by (unfold SEQUENCE_CAPACITY; lia).
    pose proof HI as [[Hlen _] _].
    destruct (IH (S j) s1 rest) as (s' & H' & Hw' & Hidx' & Hlive' & Ht');
      [lia|rewrite Hg; apply Inv_after_addColor; assumption
      |rewrite Hg; exact Hw
      |rewrite Hg, index_after_addColor by exact Hb; lia
      |rewrite Hg, live_after_addColor by assumption; symmetry; exact Hc
      |congruence|lia|exact Ht|].
    exists s'. replace (j + S m)%nat with (S j + m)%nat by lia.
    split; [|auto]. simpl. unfold bind. rewrite H1. exact H'.
Qed.

(** Every number of rounds up to 25 can be won, whatever the draws. *)
Lemma rounds_can_be_won (r : nat -> N) (n : nat) (rest : list Lines) :
  (n <= 25)%nat ->
  exists s',
    loops n (initial_State (perfect_tape r 0 n ++ rest) r) = Ret tt s'
    /\ has_lost (g_GameState s') = false
    /\ index (g_GameState s') = Z.of_nat n
    /\ live (g_GameState s') = colors r n
    /\ pin_tape (world s') = rest.
Proof.
  intros Hn.
  apply (perfect_rounds r n 0 (initial_State (perfect_tape r 0 n ++ rest) r) rest);
    try reflexivity; [lia|apply Inv_initial].
Qed.

(** ** Instances *)

Lemma displaySequence_pulses_witness :
  let s := mkState (mkGameState false ([RED; BLUE] ++ replicate 23 NO_COLOR) 2)
                   initial_ButtonStates (mkWorld [] (fun _ => 0%N) 2 []) in
  exists s',
    displaySequence s = Ret tt s'
    /\ trace (world s') = trace (world s) ++ playback (live (g_GameState s))
    /\ length (live (g_GameState s)) = 2%nat
    /\ length (pins_lit (playback (live (g_GameState s)))) = 2%nat
    /\ (forall i : nat, (i < 2)%nat ->
          pins_lit (playback (live (g_GameState s))) !! i
          = Some (colorToLED (nth i (sequence (g_GameState s)) NO_COLOR)))
    /\ g_GameState s' = g_GameState s
    /\ buttons s' = buttons s
    /\ pin_tape (world s') = pin_tape (world s)
    /\ rng_calls (world s') = rng_calls (world s).
Proof.
  intros s. apply (displaySequence_pulses s 2).
  - split; [reflexivity|]. unfold SEQUENCE_CAPACITY. simpl. lia.
  - reflexivity.
Defined.

(** The array is full: the next [addColor] writes [sequence[25]]. *)
Lemma addColor_unchecked_capacity_witness :
  let s := mkState (mkGameState false (replicate 25 RED) 25)
                   initial_ButtonStates (mkWorld [] (fun _ => 0%N) 25 []) in
  ((exists s', addColor s = Ret tt s') <-> 25 < SEQUENCE_CAPACITY)
  /\ (addColor s = Ret tt (after_addColor s) \/ addColor s = Undefined)
  /\ (SEQUENCE_CAPACITY <= 25 ->
        write_sequence 25 (drawn_color 0) s = Undefined
        /\ addColor s = Undefined
        /\ (false = false -> loop s = Undefined)).
Proof.
  intros s. apply (addColor_unchecked_capacity s). simpl. lia.
Defined.

(** Such a state is reached by winning 25 rounds; the 26th is undefined. *)
Lemma full_sequence_reachable (r : nat -> N) :
  exists s,
    loops 25 (initial_State (perfect_tape r 0 25) r) = Ret tt s
    /\ reachable s
    /\ index (g_GameState s) = 25
    /\ has_lost (g_GameState s) = false
    /\ loop s = Undefined
    /\ loops 26 (initial_State (perfect_tape r 0 25) r) = Undefined.
Proof.
  destruct (rounds_can_be_won r 25 [] ltac:(lia)) as (s & H & Hw & Hidx & _ & _).
  rewrite app_nil_r in H. exists s.
  assert (Hl : loop s = Undefined).
  { rewrite (loop_playing _ Hw). unfold startNextRound, bind at 1.
    rewrite delay_emit. unfold bind at 1. rewrite addColor_eq.
    simpl g_GameState. rewrite Hidx. reflexivity. }
  split; [exact H|]. split; [|split; [exact Hidx|split; [exact Hw|split; [exact Hl|]]]].
  - clear Hl Hidx Hw. revert s H.
    generalize (initial_State (perfect_tape r 0 25) r) (reachable_initial (perfect_tape r 0 25) r).
    generalize 25%nat. intros n. induction n as [|n IH]; intros s0 H0 s H.
    + injection H as <-. exact H0.
    + simpl in H. apply bind_Ret in H as ([] & s1 & H1 & H).
      apply (IH s1); [|exact H].
      apply (reachable_step s0 loop); [exact H0|simpl; auto 10|rewrite H1; reflexivity].
  - change (loops 26) with (loops (25 + 1)).
    assert (Hs : forall a b s0, loops (a + b) s0 = (loops a ;; loops b) s0).
    { intros a b. induction a as [|a IHa]; intros s0; [reflexivity|].
      simpl. unfold bind. destruct (loop s0); try reflexivity. apply IHa. }
    rewrite Hs. unfold bind at 1. rewrite H. simpl. unfold bind. rewrite Hl. reflexivity.
Qed.

Lemma live_sequence_playable_witness :
  exists s,
    loop (initial_State (press RED) (fun _ => 0%N)) = Ret tt s
    /\ (0 <= index (g_GameState s) <= SEQUENCE_CAPACITY
        /\ (forall i : nat,
              Z.of_nat i < index (g_GameState s) ->
              exists c,
                sequence (g_GameState s) !! i = Some c
                /\ In c [RED; BLUE; GREEN; YELLOW] /\ c <> NO_COLOR)
        /\ exists s',
             displaySequence s = Ret tt s'
             /\ trace (world s') = trace (world s) ++ playback (live (g_GameState s))
             /\ Forall (fun pin => In pin LED_pins /\ pin <> 0)
                       (pins_lit (playback (live (g_GameState s))))).
Proof.
  eexists. split; [vm_compute; reflexivity|].
  apply live_sequence_playable.
  apply (reachable_step (initial_State (press RED) (fun _ => 0%N)) loop).
  - apply reachable_initial.
  - simpl. auto 10.
  - vm_compute. reflexivity.
Defined.

(** * Further properties of the sketch *)

(** ** LED levels *)

Lemma level_after_app lvl evs1 evs2 pin :
  level_after lvl (evs1 ++ evs2) pin = level_after (level_after lvl evs1 pin) evs2 pin.
Proof. unfold level_after. apply fold_left_app. Qed.

Lemma pin_level_app evs1 evs2 pin :
  pin_level (evs1 ++ evs2) pin = level_after (pin_level evs1 pin) evs2 pin.
Proof. apply level_after_app. Qed.

Lemma duration_app evs1 evs2 : duration (evs1 ++ evs2) = duration evs1 + duration evs2.
Proof.
  induction evs1 as [|e evs1 IH]; [reflexivity|].
  simpl. destruct e; rewrite IH; lia.
Qed.

Lemma runStartup_emit s : runStartup s = Ret tt (emit (startup_on ++ startup_off) s).
Proof.
  unfold runStartup, bind. rewrite !digitalWrite_emit, !delay_emit.
  repeat rewrite ?digitalWrite_emit, ?delay_emit, ?emit_emit. reflexivity.
Qed.

(** X1.  [runStartup] always returns.  It lights the four LEDs one after
    the other, so that all four are on whatever their levels were before,
    then turns them all off: every LED is low when it returns.  It spends
    2500 ms in [delay] and touches neither the globals nor the inputs. *)
Theorem runStartup_lights_then_dark :
  forall s : State,
    exists s',
      runStartup s = Ret tt s'
      /\ trace (world s') = trace (world s) ++ startup_on ++ startup_off
      /\ all_LEDs HIGH (trace (world s) ++ startup_on)
      /\ all_LEDs LOW (trace (world s'))
      /\ duration (startup_on ++ startup_off) = 2500
      /\ g_GameState s' = g_GameState s
      /\ buttons s' = buttons s
      /\ pin_tape (world s') = pin_tape (world s).
Proof.
  intros s. exists (emit (startup_on ++ startup_off) s).
  split; [apply runStartup_emit|]. split; [reflexivity|].
  split; [|split; [|repeat split]].
  - repeat constructor; rewrite pin_level_app; reflexivity.
  - simpl trace. repeat constructor; rewrite pin_level_app; reflexivity.
Qed.

(** X2.  [showLoss] always returns.  Whatever the LEDs showed before, all
    four are on after its first phase and all four are off when it returns,
    3000 ms of [delay] later; the globals and the inputs are not touched. *)
Theorem showLoss_lights_then_dark :
  forall s : State,
    exists s',
      showLoss s = Ret tt s'
      /\ loss_animation = loss_on ++ loss_off
      /\ trace (world s') = trace (world s) ++ loss_on ++ loss_off
      /\ all_LEDs HIGH (trace (world s) ++ loss_on)
      /\ all_LEDs LOW (trace (world s'))
      /\ duration loss_animation = 3000
      /\ g_GameState s' = g_GameState s
      /\ buttons s' = buttons s
      /\ pin_tape (world s') = pin_tape (world s).
Proof.
  intros s. exists (emit loss_animation s).
  split; [apply showLoss_emit|]. split; [reflexivity|]. split; [reflexivity|].
  split; [|split; [|repeat split]].
  - repeat constructor; rewrite pin_level_app; reflexivity.
  - simpl trace. repeat constructor; rewrite pin_level_app; reflexivity.
Qed.

(** ** Sampling the buttons *)

Lemma buttonIsPressed_four g b l1 l2 l3 l4 rest r n tr :
  buttonIsPressed (mkState g b (mkWorld (l1 :: l2 :: l3 :: l4 :: rest) r n tr))
  = Ret (red_line l1 || blue_line l2 || green_line l3 || yellow_line l4)
        (mkState g
           (mkButtonStates (level (red_line l1)) (level (blue_line l2))
                           (level (green_line l3)) (level (yellow_line l4)))
           (mkWorld rest r n tr)).
Proof.
  destruct (red_line l1) eqn:E1, (blue_line l2) eqn:E2,
           (green_line l3) eqn:E3, (yellow_line l4) eqn:E4;
    unfold buttonIsPressed, updateButtonStates, bind, digitalRead, put_buttons,
      get_buttons, ret, line_level; simpl; rewrite E1, E2, E3, E4; reflexivity.
Qed.

Lemma buttonIsPressed_short s :
  (length (pin_tape (world s)) < 4)%nat ->
  buttonIsPressed s
  = Blocked (mkState (g_GameState s) (buttons s)
               (mkWorld [] (rng (world s)) (rng_calls (world s)) (trace (world s)))).
Proof.
  destruct s as [g b [tape r n tr]]. simpl.
  destruct tape as [|l1 [|l2 [|l3 [|l4 rest]]]]; simpl; intros H;
    try reflexivity. lia.
Qed.





(** ** The log and the reads of a polling loop *)

Section PollLog.

Variable cond : M bool.
Variable reads : nat.

Hypothesis cond_quiet :
  forall s b s',
    cond s = Ret b s' ->
    g_GameState s' = g_GameState s
    /\ trace (world s') = trace (world s)
    /\ length (pin_tape (world s)) = (length (pin_tape (world s')) + reads)%nat.

(** A loop [while (cond) delay(10);] that returns has logged one delay for
    each turn and read [reads] instants for each evaluation of its guard. *)
Lemma while_delay_log (fuel : nat) : forall s s',
  while_ fuel cond (delay 10) s = Ret tt s' ->
  exists k : nat,
    trace (world s') = trace (world s) ++ delays k
    /\ length (pin_tape (world s))
       = (length (pin_tape (world s')) + reads * S k)%nat
    /\ g_GameState s' = g_GameState s.
Proof using cond_quiet.
  induction fuel as [|fuel IH]; intros s s' H; simpl in H; [discriminate|].
  apply bind_Ret in H as (b & s1 & Hc & H).
  destruct (cond_quiet _ _ _ Hc) as (Hg & Ht & Hl).
  destruct b.
  - apply bind_Ret in H as ([] & s2 & Hd & H).
    rewrite delay_emit in Hd. injection Hd as <-.
    destruct (IH _ _ H) as (k & Ht' & Hl' & Hg').
    exists (S k). simpl in Ht', Hl', Hg'. split; [|split].
    + rewrite Ht', Ht, <- app_assoc. reflexivity.
    + rewrite Hl, Hl'. lia.
    + congruence.
  - injection H as <-. exists 0%nat. split; [|split].
    + rewrite Ht, app_nil_r. reflexivity.
    + rewrite Hl. lia.
    + exact Hg.
Qed.

End PollLog.

Lemma await_press_quiet s b s' :
  (p <- buttonIsPressed ;; ret (negb p)) s = Ret b s' ->
  g_GameState s' = g_GameState s
  /\ trace (world s') = trace (world s)
  /\ length (pin_tape (world s)) = (length (pin_tape (world s')) + 4)%nat.
Proof.
  intros H. apply bind_Ret in H as (p & s1 & Hp & H). injection H as _ <-.
  destruct s as [g bs [tape r n tr]].
  destruct tape as [|l1 [|l2 [|l3 [|l4 rest]]]]; try discriminate Hp.
  rewrite buttonIsPressed_four in Hp. injection Hp as _ <-.
  simpl. repeat split. lia.
Qed.

Lemma await_release_quiet pin s b s' :
  (v <- digitalRead pin ;; ret (v =? HIGH)) s = Ret b s' ->
  g_GameState s' = g_GameState s
  /\ trace (world s') = trace (world s)
  /\ length (pin_tape (world s)) = (length (pin_tape (world s')) + 1)%nat.
Proof.
  intros H. apply bind_Ret in H as (v & s1 & Hv & H). injection H as _ <-.
  unfold digitalRead in Hv.
  destruct (pin_tape (world s)) as [|l rest] eqn:E; [discriminate|].
  injection Hv as _ <-. simpl. repeat split. lia.
Qed.

Lemma buttonToLED_of_color pin : buttonToLED pin = colorToLED (buttonToColor pin).
Proof. unfold buttonToColor, buttonToLED. case_pins; reflexivity. Qed.

(** The log and the reads of a call of [getButtonColor] that returns. *)
Lemma getButtonColor_trace s c s' :
  getButtonColor s = Ret c s' ->
  exists k j : nat,
    trace (world s')
    = trace (world s) ++ delays k ++ [EvWrite (colorToLED c) HIGH]
        ++ delays j ++ [EvWrite (colorToLED c) LOW]
    /\ length (pin_tape (world s))
       = (length (pin_tape (world s')) + 4 * S k + S j)%nat.
Proof.
  unfold getButtonColor. intros H.
  apply bind_Ret in H as ([] & s1 & Hwait & H).
  apply bind_Ret in H as (pin & s2 & Hpin & H).
  injection Hpin as <- <-. cbv zeta in H.
  apply bind_Ret in H as ([] & s3 & Hon & H).
  rewrite digitalWrite_emit in Hon. injection Hon as <-.
  apply bind_Ret in H as ([] & s4 & Hheld & H).
  apply bind_Ret in H as ([] & s5 & Hoff & H).
  rewrite digitalWrite_emit in Hoff. injection Hoff as <-.
  injection H as <- <-.
  apply (while_delay_log _ 4 await_press_quiet) in Hwait as (k & Ht1 & Hl1 & _).
  apply (while_delay_log _ 1 (await_release_quiet _)) in Hheld as (j & Ht2 & Hl2 & _).
  exists k, j. rewrite <- buttonToLED_of_color. simpl in *. split.
  - rewrite Ht2, Ht1, <- !app_assoc. reflexivity.
  - rewrite Hl1, Hl2. lia.
Qed.

(** X4.  A call of [getButtonColor] that returns has logged, in this
    order: a 10 ms delay for each failed poll of the buttons, the LED of the
    colour it returns driven high, a 10 ms delay for each poll that found the
    button still held, and the same LED driven low.  It has read four
    instants for each poll of the buttons and one for each poll of the held
    button; the LED is one of the four LED pins and the game state is as
    before. *)
Theorem getButtonColor_log :
  forall (s : State) (c : Color) (s' : State),
    getButtonColor s = Ret c s' ->
    exists k j : nat,
      trace (world s')
      = trace (world s) ++ delays k ++ [EvWrite (colorToLED c) HIGH]
          ++ delays j ++ [EvWrite (colorToLED c) LOW]
      /\ length (pin_tape (world s))
         = (length (pin_tape (world s')) + 4 * S k + S j)%nat
      /\ In (colorToLED c) LED_pins
      /\ g_GameState s' = g_GameState s.
Proof.
  intros s c s' H.
  destruct (getButtonColor_trace _ _ _ H) as (k & j & Ht & Hl).
  exists k, j. split; [exact Ht|]. split; [exact Hl|]. split.
  - apply getButtonColor_Ret in H as (Hany & ->).
    apply colorToLED_playable, buttonToColor_playable, getButtonPressed_of_button, Hany.
  - apply (getButtonColor_game _ _ _ H).
Qed.

(** Two polls before Yellow goes down, then held for two more polls. *)
Lemma getButtonColor_log_witness :
  let tape := [idle; idle; idle; idle; idle; idle; idle; idle;
               only YELLOW; only YELLOW; only YELLOW; only YELLOW;
               only YELLOW; only YELLOW; idle; idle] in
  let s := initial_State tape (fun _ => 0%N) in
  exists s',
    getButtonColor s = Ret YELLOW s'
    /\ exists k j : nat,
         trace (world s')
         = trace (world s) ++ delays k ++ [EvWrite (colorToLED YELLOW) HIGH]
             ++ delays j ++ [EvWrite (colorToLED YELLOW) LOW]
         /\ length (pin_tape (world s))
            = (length (pin_tape (world s')) + 4 * S k + S j)%nat
         /\ In (colorToLED YELLOW) LED_pins
         /\ g_GameState s' = g_GameState s.
Proof.
  intros tape s. eexists. split; [vm_compute; reflexivity|].
  apply (getButtonColor_log s). vm_compute. reflexivity.
Defined.

(** ** Waiting for the player *)

Lemma delays_S k : delays (S k) = EvDelay 10 :: delays k.
Proof. reflexivity. Qed.

Lemma level_after_delays lvl k pin : level_after lvl (delays k) pin = lvl.
Proof. induction k as [|k IH]; [reflexivity|exact IH]. Qed.

Lemma all_low_not_pressed l1 l2 l3 l4 :
  all_low l1 -> all_low l2 -> all_low l3 -> all_low l4 ->
  red_line l1 || blue_line l2 || green_line l3 || yellow_line l4 = false.
Proof.
  intros (-> & _) (_ & -> & _) (_ & _ & -> & _) (_ & _ & _ & ->). reflexivity.
Qed.

(** With no line ever high, the wait for a press uses up the tape. *)
Lemma await_press_idle (n : nat) : forall g b tape r c tr,
  (length tape < 4 * n)%nat ->
  Forall all_low tape ->
  exists b',
    poll (p <- buttonIsPressed ;; ret (negb p)) (delay 10)
         (mkState g b (mkWorld tape r c tr))
    = Blocked (mkState g b' (mkWorld [] r c (tr ++ delays (length tape / 4)))).
Proof.
  induction n as [|n IH]; intros g b tape r c tr Hn Hlow; [lia|].
  rewrite await_press_unfold. unfold bind at 1.
  destruct tape as [|l1 [|l2 [|l3 [|l4 rest]]]];
    try (rewrite buttonIsPressed_short by (simpl; lia);
         exists b; simpl; rewrite app_nil_r; reflexivity).
  rewrite buttonIsPressed_four.
  inversion Hlow as [|? ? H1 Hlow1]; subst.
  inversion Hlow1 as [|? ? H2 Hlow2]; subst.
  inversion Hlow2 as [|? ? H3 Hlow3]; subst.
  inversion Hlow3 as [|? ? H4 Hlow4]; subst.
  rewrite (all_low_not_pressed _ _ _ _ H1 H2 H3 H4).
  change (negb false) with true. cbv iota.
  destruct (IH g (mkButtonStates (level (red_line l1)) (level (blue_line l2))
                                 (level (green_line l3)) (level (yellow_line l4)))
               rest r c (tr ++ [EvDelay 10])) as (b' & Hb);
    [simpl in Hn; lia|exact Hlow4|].
  exists b'. unfold bind at 1. rewrite delay_emit. unfold emit.
  cbn [g_GameState buttons world pin_tape rng rng_calls trace].
  rewrite Hb. f_equal. f_equal. f_equal.
  change (length (l1 :: l2 :: l3 :: l4 :: rest)) with (1 * 4 + length rest)%nat.
  rewrite Nat.div_add_l by lia. rewrite <- app_assoc. reflexivity.
Qed.

(** X5.  [getButtonColor] has no timeout.  As long as no button line goes
    high it polls, four reads and one 10 ms delay at a time, and is still
    waiting when the reads end: it has lit no LED, written nothing but
    delays, and left the game state alone.  On an empty script it is
    waiting at once. *)
Theorem getButtonColor_waits :
  forall s : State,
    Forall all_low (pin_tape (world s)) ->
    exists s',
      getButtonColor s = Blocked s'
      /\ trace (world s')
         = trace (world s) ++ delays (length (pin_tape (world s)) / 4)
      /\ pin_tape (world s') = []
      /\ g_GameState s' = g_GameState s.
Proof.
  intros [g b [tape r c tr]] Hlow. simpl in Hlow.
  destruct (await_press_idle (S (length tape)) g b tape r c tr) as (b' & Hb);
    [lia|exact Hlow|].
  eexists. split.
  - unfold getButtonColor, bind at 1. rewrite Hb. reflexivity.
  - simpl. auto.
Qed.

Lemma getButtonColor_waits_witness :
  let s := initial_State (replicate 9 idle) (fun _ => 0%N) in
  exists s',
    getButtonColor s = Blocked s'
    /\ trace (world s') = trace (world s) ++ delays (length (pin_tape (world s)) / 4)
    /\ pin_tape (world s') = []
    /\ g_GameState s' = g_GameState s.
Proof.
  intros s. apply (getButtonColor_waits s).
  simpl. repeat constructor.
Defined.

Lemma first_high_selected l pin :
  first_high l = Some pin ->
  red_line l || blue_line l || green_line l || yellow_line l = true
  /\ getButtonPressed_of (samples_of l) = pin
  /\ is_button_pin pin.
Proof.
  unfold is_button_pin.
  destruct l as [[] [] [] []]; vm_compute; intros H; try discriminate;
    injection H as <-; auto 10.
Qed.

(** While the selected line stays high, the wait for the release uses up
    the tape. *)
Lemma await_release_held pin (held : list Lines) : forall g b r c tr,
  Forall (fun l => line_level l pin = HIGH) held ->
  poll (v <- digitalRead pin ;; ret (v =? HIGH)) (delay 10)
       (mkState g b (mkWorld held r c tr))
  = Blocked (mkState g b (mkWorld [] r c (tr ++ delays (length held)))).
Proof.
  induction held as [|l held IH]; intros g b r c tr Hh;
    rewrite await_release_unfold; unfold bind at 1, digitalRead at 1; simpl.
  - rewrite app_nil_r. reflexivity.
  - inversion Hh as [|? ? Hl Hrest]; subst. unfold bind at 1, ret at 1.
    rewrite Hl. change (HIGH =? HIGH) with true. cbv iota.
    unfold bind at 1. rewrite delay_emit. unfold emit. simpl.
    rewrite IH by exact Hrest. rewrite <- app_assoc. reflexivity.
Qed.

(** X6.  The LED stays lit while the button is held.  When the four
    samples of a poll find a line high and the selected line then stays high
    at every later read, [getButtonColor] is still waiting when the reads
    end, one 10 ms delay logged for each of them, and the LED of the
    selected button is high. *)
Theorem getButtonColor_held_lit :
  forall (s : State) (l : Lines) (pin : Z) (held : list Lines),
    first_high l = Some pin ->
    pin_tape (world s) = [l; l; l; l] ++ held ->
    Forall (fun l' => line_level l' pin = HIGH) held ->
    exists s',
      getButtonColor s = Blocked s'
      /\ trace (world s')
         = trace (world s) ++ [EvWrite (buttonToLED pin) HIGH] ++ delays (length held)
      /\ pin_level (trace (world s')) (buttonToLED pin) = HIGH
      /\ In (buttonToLED pin) LED_pins
      /\ g_GameState s' = g_GameState s.
Proof.
  intros [g b [tape r c tr]] l pin held Hl Htape Hheld. simpl in Htape. subst tape.
  destruct (first_high_selected _ _ Hl) as (Hany & Hsel & Hpin).
  eexists. split.
  - unfold getButtonColor. unfold bind at 1. rewrite await_press_unfold.
    unfold bind at 1. simpl app. rewrite buttonIsPressed_four, Hany.
    change (negb true) with false. cbv iota. unfold ret at 1.
    unfold bind at 1, getButtonPressed at 1, bind at 1, get_buttons at 1, ret at 1.
    simpl buttons. fold (samples_of l). rewrite Hsel. cbv zeta.
    unfold bind at 1. rewrite digitalWrite_emit. unfold emit. simpl.
    unfold bind at 1. rewrite await_release_held by exact Hheld. reflexivity.
  - simpl. split; [rewrite <- app_assoc; reflexivity|]. split; [|split; [|reflexivity]].
    + rewrite !pin_level_app. simpl level_after at 2.
      rewrite Z.eqb_refl. apply level_after_delays.
    + rewrite buttonToLED_of_color.
      apply colorToLED_playable, buttonToColor_playable, Hpin.
Qed.

Lemma getButtonColor_held_lit_witness :
  let s := initial_State ([only BLUE; only BLUE; only BLUE; only BLUE]
                          ++ replicate 3 (only BLUE)) (fun _ => 0%N) in
  exists s',
    getButtonColor s = Blocked s'
    /\ trace (world s') = [] ++ [EvWrite (buttonToLED BLUE_BUTTON) HIGH] ++ delays 3
    /\ pin_level (trace (world s')) (buttonToLED BLUE_BUTTON) = HIGH
    /\ In (buttonToLED BLUE_BUTTON) LED_pins
    /\ g_GameState s' = g_GameState s.
Proof.
  intros s.
  apply (getButtonColor_held_lit s (only BLUE) BLUE_BUTTON (replicate 3 (only BLUE)));
    [reflexivity|reflexivity|].
  simpl. repeat constructor.
Defined.

(** ** What holds when a computation returns *)

Section Returning.

Variable P : State -> State -> Prop.
Hypothesis P_refl : forall s, P s s.
Hypothesis P_trans : forall s1 s2 s3, P s1 s2 -> P s2 s3 -> P s1 s3.

Lemma returns_ret {A} (a : A) : returns P (ret a).
Proof using P_refl. intros s a' s' [= _ <-]. apply P_refl. Qed.

Lemma returns_bind {A B} (m : M A) (k : A -> M B) :
  returns P m -> (forall a, returns P (k a)) -> returns P (bind m k).
Proof using P_trans.
  intros Hm Hk s b s' H. apply bind_Ret in H as (a & s1 & H1 & H2).
  apply P_trans with s1; [apply (Hm _ _ _ H1)|apply (Hk _ _ _ _ H2)].
Qed.

Lemma returns_if {A} (b : bool) (m1 m2 : M A) :
  returns P m1 -> returns P m2 -> returns P (if b then m1 else m2).
Proof. destruct b; auto. Qed.

End Returning.

Lemma dark_refl s : dark s s.
Proof. unfold dark. auto. Qed.

Lemma dark_trans s1 s2 s3 : dark s1 s2 -> dark s2 s3 -> dark s1 s3.
Proof. unfold dark. auto. Qed.

(** Actions that bring every LED from low to low keep the LEDs dark. *)
Lemma dark_emit evs s :
  Forall (fun pin => level_after LOW evs pin = LOW) LED_pins ->
  dark s (emit evs s).
Proof.
  unfold dark, all_LEDs. simpl trace. intros Hevs Hs.
  assert (H : Forall (fun pin => level_after LOW evs pin = LOW
                             /\ pin_level (trace (world s)) pin = LOW) LED_pins)
    by (apply Forall_and; split; assumption).
  eapply Forall_impl; [exact H|]. simpl. intros pin [H1 H2].
  rewrite pin_level_app, H2. exact H1.
Qed.

Lemma dark_same_trace s s' :
  trace (world s') = trace (world s) -> dark s s'.
Proof. unfold dark. intros ->. auto. Qed.

Lemma level_after_press lvl k j p pin :
  lvl = LOW ->
  level_after lvl (delays k ++ [EvWrite p HIGH] ++ delays j ++ [EvWrite p LOW]) pin = LOW.
Proof.
  intros ->. rewrite !level_after_app, !level_after_delays. simpl.
  destruct (p =? pin); reflexivity.
Qed.

Create HintDb returning.

Lemma delay_dark ms : returns dark (delay ms).
Proof.
  intros s [] s' H. rewrite delay_emit in H. injection H as <-.
  apply dark_emit. repeat constructor.
Qed.

Lemma get_GameState_dark : returns dark get_GameState.
Proof. intros s a s' [= _ <-]. apply dark_refl. Qed.

Lemma read_sequence_dark i : returns dark (read_sequence i).
Proof.
  intros s a s' H. unfold read_sequence in H.
  destruct ((0 <=? i) && (i <? SEQUENCE_CAPACITY)); [|discriminate].
  injection H as _ <-. apply dark_refl.
Qed.

Lemma set_has_lost_dark b : returns dark (set_has_lost b).
Proof.
  intros s a s' H. injection H as H. subst s'. apply dark_same_trace. reflexivity.
Qed.

Lemma addColor_dark : returns dark addColor.
Proof.
  intros s [] s' H. apply addColor_Ret in H as [_ ->].
  apply dark_same_trace. reflexivity.
Qed.

Lemma displayColor_dark c : returns dark (displayColor c).
Proof.
  intros s [] s' H. rewrite displayColor_emit in H. injection H as <-.
  apply dark_emit. destruct c; repeat constructor.
Qed.

Lemma getButtonColor_dark : returns dark getButtonColor.
Proof.
  intros s c s' H. destruct (getButtonColor_trace _ _ _ H) as (k & j & Ht & _).
  unfold dark, all_LEDs. rewrite Ht. intros Hs.
  eapply Forall_impl; [exact Hs|]. simpl. intros pin Hpin.
  rewrite pin_level_app. apply level_after_press, Hpin.
Qed.

Lemma showLoss_dark : returns dark showLoss.
Proof.
  intros s [] s' H. rewrite showLoss_emit in H. injection H as <-.
  apply dark_emit. repeat constructor.
Qed.

#[global] Hint Resolve delay_dark get_GameState_dark read_sequence_dark
  set_has_lost_dark addColor_dark displayColor_dark getButtonColor_dark
  showLoss_dark : returning.

Ltac stays_dark :=
  repeat match goal with
         | |- returns _ (ret _) => apply (returns_ret _ dark_refl)
         | |- returns _ (set_has_lost _) => apply set_has_lost_dark
         | |- returns _ (bind _ _) => apply (returns_bind _ dark_trans); [|intros ?]
         | |- returns _ (if _ then _ else _) => apply returns_if
         | |- _ => solve [auto with returning]
         end.

Lemma displaySequence_from_dark n : forall i, returns dark (displaySequence_from n i).
Proof. induction n as [|n IH]; intros i; cbn [displaySequence_from]; stays_dark. Qed.

Lemma checkInputs_from_dark n : forall j, returns dark (checkInputs_from n j).
Proof. induction n as [|n IH]; intros j; cbn [checkInputs_from]; stays_dark. Qed.

Lemma displaySequence_dark : returns dark displaySequence.
Proof. apply displaySequence_from_dark. Qed.

Lemma checkInputs_dark : returns dark checkInputs.
Proof. apply checkInputs_from_dark. Qed.

#[global] Hint Resolve displaySequence_dark checkInputs_dark : returning.

Lemma startNextRound_dark : returns dark startNextRound.
Proof. unfold startNextRound. stays_dark. Qed.

#[global] Hint Resolve startNextRound_dark : returning.

Lemma loop_dark : returns dark loop.
Proof. unfold loop. stays_dark. Qed.

Lemma loops_dark n : returns dark (loops n).
Proof.
  induction n as [|n IH]; cbn [loops]; stays_dark. apply loop_dark.
Qed.

(** X7.  No LED is left on.  If the four LEDs are off when one of
    [displaySequence], [getButtonColor], [startNextRound] and [loop] is
    called, they are off when it returns; so they are off after any number of
    iterations of [loop] from power-on that have returned. *)
Theorem LEDs_off_on_return :
  (forall s s', all_LEDs LOW (trace (world s)) ->
     displaySequence s = Ret tt s' -> all_LEDs LOW (trace (world s')))
  /\ (forall s c s', all_LEDs LOW (trace (world s)) ->
        getButtonColor s = Ret c s' -> all_LEDs LOW (trace (world s')))
  /\ (forall s s', all_LEDs LOW (trace (world s)) ->
        startNextRound s = Ret tt s' -> all_LEDs LOW (trace (world s')))
  /\ (forall s s', all_LEDs LOW (trace (world s)) ->
        loop s = Ret tt s' -> all_LEDs LOW (trace (world s')))
  /\ (forall (n : nat) tape r s',
        loops n (initial_State tape r) = Ret tt s' ->
        all_LEDs LOW (trace (world s'))).
Proof.
  split; [|split; [|split; [|split]]].
  - intros s s' Hs H. apply (displaySequence_dark _ _ _ H), Hs.
  - intros s c s' Hs H. apply (getButtonColor_dark _ _ _ H), Hs.
  - intros s s' Hs H. apply (startNextRound_dark _ _ _ H), Hs.
  - intros s s' Hs H. apply (loop_dark _ _ _ H), Hs.
  - intros n tape r s' H. apply (loops_dark n _ _ _ H).
    repeat constructor.
Qed.

Lemma LEDs_off_on_return_witness :
  exists s',
    loops 2 (initial_State (presses [RED; RED; GREEN]) (fun n => N.of_nat n)) = Ret tt s'
    /\ has_lost (g_GameState s') = true
    /\ all_LEDs LOW (trace (world s')).
Proof.
  eexists. split; [vm_compute; reflexivity|]. split; [reflexivity|].
  destruct LEDs_off_on_return as (_ & _ & _ & _ & H).
  apply (H 2%nat (presses [RED; RED; GREEN]) (fun n => N.of_nat n)).
  vm_compute. reflexivity.
Defined.

(** ** Where the array can be left *)

Lemma defined_ret {A} (a : A) : defined (ret a).
Proof. intros s. discriminate. Qed.

Lemma defined_bind {A B} (m : M A) (k : A -> M B) :
  defined m -> (forall a, defined (k a)) -> defined (bind m k).
Proof.
  intros Hm Hk s. unfold bind. specialize (Hm s).
  destruct (m s) as [a s1|s1|]; [apply Hk|discriminate|contradiction].
Qed.

Lemma defined_if {A} (b : bool) (m1 m2 : M A) :
  defined m1 -> defined m2 -> defined (if b then m1 else m2).
Proof. destruct b; auto. Qed.

Lemma defined_while fuel cond body :
  defined cond -> defined body -> defined (while_ fuel cond body).
Proof.
  intros Hc Hb. induction fuel as [|fuel IH]; simpl.
  - intros s. discriminate.
  - apply defined_bind; [exact Hc|]. intros b.
    apply defined_if; [|apply defined_ret].
    apply defined_bind; auto.
Qed.

Lemma defined_poll cond body : defined cond -> defined body -> defined (poll cond body).
Proof. intros Hc Hb s. unfold poll. apply defined_while; assumption. Qed.

Lemma digitalWrite_defined pin v : defined (digitalWrite pin v).
Proof. intros s. discriminate. Qed.

Lemma delay_defined ms : defined (delay ms).
Proof. intros s. discriminate. Qed.

Lemma digitalRead_defined pin : defined (digitalRead pin).
Proof. intros s. unfold digitalRead. destruct (pin_tape (world s)); discriminate. Qed.

Lemma get_buttons_defined : defined get_buttons.
Proof. intros s. discriminate. Qed.

Lemma put_buttons_defined b : defined (put_buttons b).
Proof. intros s. discriminate. Qed.

Create HintDb defined.

#[global] Hint Resolve digitalWrite_defined delay_defined digitalRead_defined
  get_buttons_defined put_buttons_defined : defined.

Ltac is_defined :=
  repeat match goal with
         | |- defined (ret _) => apply defined_ret
         | |- defined (bind _ _) => apply defined_bind; [|intros ?]
         | |- defined (poll _ _) => apply defined_poll
         | |- defined (if _ then _ else _) => apply defined_if
         | |- defined (let _ := _ in _) => cbv zeta
         | |- _ => solve [auto with defined]
         end.

Lemma updateButtonStates_defined : defined updateButtonStates.
Proof. unfold updateButtonStates. is_defined. Qed.

#[global] Hint Resolve updateButtonStates_defined : defined.

Lemma buttonIsPressed_defined : defined buttonIsPressed.
Proof. unfold buttonIsPressed. is_defined. Qed.

Lemma getButtonPressed_defined : defined getButtonPressed.
Proof. unfold getButtonPressed. is_defined. Qed.

#[global] Hint Resolve buttonIsPressed_defined getButtonPressed_defined : defined.

Lemma getButtonColor_defined : defined getButtonColor.
Proof. unfold getButtonColor. is_defined. Qed.

Lemma showLoss_defined : defined showLoss.
Proof. intros s. rewrite showLoss_emit. discriminate. Qed.

Lemma runStartup_defined : defined runStartup.
Proof. intros s. rewrite runStartup_emit. discriminate. Qed.

Lemma displaySequence_wf_defined s :
  wf_GameState (g_GameState s) -> displaySequence s <> Undefined.
Proof.
  intros Hwf. pose proof Hwf as [_ Hcap]. unfold SEQUENCE_CAPACITY in Hcap.
  unfold displaySequence.
  rewrite (displaySequence_from_emit (Z.to_nat (index (g_GameState s))));
    [discriminate|lia|lia|lia|exact Hwf].
Qed.

Lemma checkInputs_from_defined (m : nat) : forall (n : nat) (j : Z) (s : State),
  (m < n)%nat ->
  0 <= j ->
  index (g_GameState s) = j + Z.of_nat m ->
  wf_GameState (g_GameState s) ->
  checkInputs_from n j s <> Undefined.
Proof.
  induction m as [|m IH]; intros n j s Hn Hj Hidx Hwf;
    (destruct n as [|n]; [lia|]); rewrite checkInputs_from_step.
  - destruct (Z.ltb_spec j (index (g_GameState s))); [lia|discriminate].
  - pose proof Hwf as [_ Hcap]. unfold SEQUENCE_CAPACITY in Hcap.
    destruct (Z.ltb_spec j (index (g_GameState s))); [|lia].
    destruct (getButtonColor s) as [c s1|s1|] eqn:Hc;
      [|discriminate|destruct (getButtonColor_defined s Hc)].
    pose proof (getButtonColor_game _ _ _ Hc) as Hg.
    destruct (Z.leb_spec 0 j); [|lia].
    destruct (Z.ltb_spec j SEQUENCE_CAPACITY) as [_|Hge];
      [|unfold SEQUENCE_CAPACITY in Hge; lia].
    simpl andb. cbv iota.
    destruct (Color_eqb c _); [|discriminate].
    assert (Hu : uint8 (j + 1) = j + 1) by (apply Z.mod_small; lia).
    rewrite Hu. apply IH; [lia|lia|rewrite Hg; lia|rewrite Hg; exact Hwf].
Qed.

Lemma checkInputs_wf_defined s :
  wf_GameState (g_GameState s) -> checkInputs s <> Undefined.
Proof.
  intros Hwf. pose proof Hwf as [_ Hcap]. unfold SEQUENCE_CAPACITY in Hcap.
  apply (checkInputs_from_defined (Z.to_nat (index (g_GameState s)))); [lia|lia|lia|exact Hwf].
Qed.

(** A round started below the capacity stays inside the array. *)
Lemma startNextRound_defined s :
  Inv (g_GameState s) ->
  index (g_GameState s) < SEQUENCE_CAPACITY ->
  startNextRound s <> Undefined.
Proof.
  intros HI Hi. pose proof HI as [[Hlen Hcap] _].
  unfold startNextRound. unfold bind at 1. rewrite delay_emit.
  set (s0 := emit [EvDelay 250] s).
  assert (Hb : 0 <= index (g_GameState s0) < SEQUENCE_CAPACITY) by (simpl; lia).
  unfold bind at 1. rewrite (addColor_in_bounds s0 Hb).
  set (s1 := after_addColor s0).
  assert (HI1 : Inv (g_GameState s1)) by (apply Inv_after_addColor; assumption).
  destruct HI1 as [Hwf1 _].
  unfold bind at 1.
  destruct (displaySequence s1) as [[] s2|s2|] eqn:Hd;
    [|discriminate|destruct (displaySequence_wf_defined s1 Hwf1 Hd)].
  assert (Hg2 : g_GameState s2 = g_GameState s1)
    by (apply (displaySequence_same_game s1 s2); rewrite Hd; reflexivity).
  unfold bind at 1. rewrite delay_emit.
  apply checkInputs_wf_defined. simpl. rewrite Hg2. exact Hwf1.
Qed.

Lemma loop_undefined_iff s :
  Inv (g_GameState s) ->
  loop s = Undefined
  <-> has_lost (g_GameState s) = false /\ index (g_GameState s) = SEQUENCE_CAPACITY.
Proof.
  intros HI. pose proof HI as [[_ Hcap] _]. split.
  - intros H. destruct (has_lost (g_GameState s)) eqn:E.
    + rewrite (loop_lost _ E) in H. discriminate.
    + split; [reflexivity|].
      destruct (Z.eq_dec (index (g_GameState s)) SEQUENCE_CAPACITY) as [|Hne]; [assumption|].
      rewrite (loop_playing _ E) in H.
      exfalso. apply (startNextRound_defined s HI); [lia|exact H].
  - intros [E Hidx]. rewrite (loop_playing _ E).
    unfold startNextRound. unfold bind at 1. rewrite delay_emit.
    unfold bind at 1. rewrite addColor_eq. simpl g_GameState. rewrite Hidx.
    reflexivity.
Qed.

(** X8.  The sketch leaves the array in one place only.  In every state
    the game can be in, playback, reading an input, the input loop and the
    loss animation stay inside [sequence]; [addColor] writes outside it
    exactly when [index] is 25, and an iteration of [loop] has no defined
    outcome exactly when the game is not lost and [index] is 25. *)
Theorem out_of_bounds_only_at_capacity :
  forall s : State,
    reachable s ->
    displaySequence s <> Undefined
    /\ getButtonColor s <> Undefined
    /\ checkInputs s <> Undefined
    /\ showLoss s <> Undefined
    /\ (addColor s = Undefined <-> index (g_GameState s) = SEQUENCE_CAPACITY)
    /\ (loop s = Undefined
        <-> has_lost (g_GameState s) = false
            /\ index (g_GameState s) = SEQUENCE_CAPACITY).
Proof.
  intros s Hr. apply reachable_Inv in Hr as HI. pose proof HI as [Hwf _].
  pose proof Hwf as [_ Hcap].
  split; [apply displaySequence_wf_defined, Hwf|].
  split; [apply getButtonColor_defined|].
  split; [apply checkInputs_wf_defined, Hwf|].
  split; [apply showLoss_defined|].
  split; [|apply loop_undefined_iff, HI].
  rewrite addColor_eq.
  destruct (Z.leb_spec 0 (index (g_GameState s))); [|lia].
  destruct (Z.ltb_spec (index (g_GameState s)) SEQUENCE_CAPACITY); simpl;
    split; intros H'; try discriminate; try reflexivity; lia.
Qed.

Lemma out_of_bounds_only_at_capacity_witness :
  let s := initial_State [] (fun _ => 0%N) in
  displaySequence s <> Undefined
  /\ getButtonColor s <> Undefined
  /\ checkInputs s <> Undefined
  /\ showLoss s <> Undefined
  /\ (addColor s = Undefined <-> index (g_GameState s) = SEQUENCE_CAPACITY)
  /\ (loop s = Undefined
      <-> has_lost (g_GameState s) = false
          /\ index (g_GameState s) = SEQUENCE_CAPACITY).
Proof.
  intros s. apply (out_of_bounds_only_at_capacity s). apply reachable_initial.
Defined.

(** ** What the input loop decides *)

(** The input loop from position [j] with [m] positions left, seen from
    its result: either it read the [m] expected colours, or the first input
    that differed ended it. *)
Lemma checkInputs_from_Ret (m : nat) :
  forall (n : nat) (j : Z) (s s' : State),
    (m < n)%nat ->
    0 <= j ->
    index (g_GameState s) = j + Z.of_nat m ->
    wf_GameState (g_GameState s) ->
    checkInputs_from n j s = Ret tt s' ->
    let expected := take m (drop (Z.to_nat j) (sequence (g_GameState s))) in
    readInputs m s = Ret expected s'
    \/ exists (k : nat) (c : Color) (s_k : State),
         (k < m)%nat
         /\ readInputs (S k) s = Ret (take k expected ++ [c]) s_k
         /\ expected !! k <> Some c
         /\ s' = lose s_k.
Proof.
  induction m as [|m IH]; intros n j s s' Hn Hj Hidx Hwf H expected;
    (destruct n as [|n]; [lia|]); rewrite checkInputs_from_step in H.
  - destruct (Z.ltb_spec j (index (g_GameState s))); [lia|].
    injection H as <-. left. reflexivity.
  - pose proof Hwf as [Hlen Hcap]. unfold SEQUENCE_CAPACITY in Hcap.
    destruct (Z.ltb_spec j (index (g_GameState s))); [|lia].
    destruct (getButtonColor s) as [c s1|s1|] eqn:Hc; try discriminate.
    pose proof (getButtonColor_game _ _ _ Hc) as Hg.
    destruct (Z.leb_spec 0 j); [|lia].
    destruct (Z.ltb_spec j SEQUENCE_CAPACITY) as [_|Hge];
      [|unfold SEQUENCE_CAPACITY in Hge; lia].
    simpl andb in H. cbv iota in H. rewrite Hg in H.
    set (e := nth (Z.to_nat j) (sequence (g_GameState s)) NO_COLOR) in *.
    assert (Hl : sequence (g_GameState s) !! Z.to_nat j = Some e)
      by (apply lookup_nth; lia).
    assert (He : expected
                 = e :: take m (drop (Z.to_nat (j + 1)) (sequence (g_GameState s)))).
    { unfold expected. rewrite (drop_S _ _ _ Hl), firstn_cons.
      replace (Z.to_nat (j + 1)) with (S (Z.to_nat j)) by lia. reflexivity. }
    assert (Hu : uint8 (j + 1) = j + 1) by (apply Z.mod_small; lia).
    rewrite He. destruct (Color_eqb c e) eqn:E.
    + apply Color_eqb_eq in E. subst c. rewrite Hu in H.
      destruct (IH n (j + 1) s1 s') as [Hall|(k & c & s_k & Hk & Hr & Hd & Hs)];
        [lia|lia|rewrite Hg; lia|rewrite Hg; exact Hwf|exact H| |].
      * left. rewrite Hg in Hall. apply readInputs_S with s1; assumption.
      * right. rewrite Hg in Hr, Hd. exists (S k), c, s_k.
        split; [lia|]. split; [|split; [exact Hd|exact Hs]].
        apply (readInputs_S _ _ _ _ _ _ Hc Hr).
    + injection H as <-. right. exists 0%nat, c, s1.
      split; [lia|]. split; [|split; [|reflexivity]].
      * apply readInputs_S with s1; [exact Hc|reflexivity].
      * simpl. intros [= ->]. rewrite (proj2 (Color_eqb_eq c c) eq_refl) in E.
        discriminate.
Qed.

(** While the input loop waits, the game state is as the round found it. *)
Lemma checkInputs_from_Blocked (n : nat) : forall (j : Z) (s s' : State),
  checkInputs_from n j s = Blocked s' -> g_GameState s' = g_GameState s.
Proof.
  induction n as [|n IH]; intros j s s' H; [discriminate|].
  rewrite checkInputs_from_step in H.
  destruct (j <? index (g_GameState s)); [|discriminate].
  destruct (getButtonColor s) as [c s1|s1|] eqn:Hc; try discriminate.
  - pose proof (getButtonColor_game _ _ _ Hc) as Hg.
    destruct ((0 <=? j) && (j <? SEQUENCE_CAPACITY)); [|discriminate].
    destruct (Color_eqb c _); [|discriminate].
    rewrite (IH _ _ _ H). exact Hg.
  - injection H as <-.
    apply (getButtonColor_same_game s s1). rewrite Hc. reflexivity.
Qed.

(** X9.  What the input loop of [startNextRound] has done can be read off
    its result.  In a state of the C struct with [N] colours it never leaves
    the array.  If it returns, then either it read [N] inputs equal to the
    stored colours and the game state is unchanged, or for some [k < N] it
    read [k] inputs equal to the first [k] colours and then one that differs
    from the next, and stopped there with [has_lost] set.  If it is still
    waiting for an input, the game state is unchanged: [has_lost] is never
    set before a differing input has been read. *)
Theorem checkInputs_outcome :
  forall s : State,
    wf_GameState (g_GameState s) ->
    let N := Z.to_nat (index (g_GameState s)) in
    checkInputs s <> Undefined
    /\ (forall s', checkInputs s = Blocked s' -> g_GameState s' = g_GameState s)
    /\ (forall s',
          checkInputs s = Ret tt s' ->
          (readInputs N s = Ret (live (g_GameState s)) s'
           /\ g_GameState s' = g_GameState s)
          \/ exists (k : nat) (c : Color) (s_k : State),
               (k < N)%nat
               /\ readInputs (S k) s = Ret (take k (live (g_GameState s)) ++ [c]) s_k
               /\ live (g_GameState s) !! k <> Some c
               /\ s' = lose s_k
               /\ has_lost (g_GameState s') = true).
Proof.
  intros s Hwf N. pose proof Hwf as [_ Hcap]. unfold SEQUENCE_CAPACITY in Hcap.
  split; [apply checkInputs_wf_defined, Hwf|]. split.
  - intros s' H. apply (checkInputs_from_Blocked _ _ _ _ H).
  - intros s' H.
    destruct (checkInputs_from_Ret N 256 0 s s') as [Hall|(k & c & s_k & Hk & Hr & Hd & Hs)];
      [unfold N; lia|lia|unfold N; lia|exact Hwf|exact H| |].
    + left. simpl Z.to_nat in Hall. rewrite drop_0 in Hall. split; [exact Hall|].
      apply (readInputs_same_game N s s'). rewrite Hall. reflexivity.
    + right. simpl Z.to_nat in Hr, Hd. rewrite drop_0 in Hr, Hd.
      exists k, c, s_k. subst s'. repeat split; assumption.
Qed.

(** The sequence is Red, Blue; the player presses Red, then Green. *)
Lemma checkInputs_outcome_witness :
  let s := mkState (mkGameState false ([RED; BLUE] ++ replicate 23 NO_COLOR) 2)
                   initial_ButtonStates
                   (mkWorld (presses [RED; GREEN]) (fun _ => 0%N) 2 []) in
  exists s',
    checkInputs s = Ret tt s'
    /\ exists (k : nat) (c : Color) (s_k : State),
         (k < 2)%nat
         /\ readInputs (S k) s = Ret (take k (live (g_GameState s)) ++ [c]) s_k
         /\ live (g_GameState s) !! k <> Some c
         /\ s' = lose s_k
         /\ has_lost (g_GameState s') = true.
Proof.
  intros s.
  assert (Hwf : wf_GameState (g_GameState s))
    by (split; [reflexivity|unfold SEQUENCE_CAPACITY; simpl; lia]).
  destruct (checkInputs_outcome s Hwf) as (_ & _ & H).
  assert (Hc : exists s', checkInputs s = Ret tt s' /\ has_lost (g_GameState s') = true)
    by (eexists; vm_compute; split; reflexivity).
  destruct Hc as (s' & Hc & Hlost).
  exists s'. split; [exact Hc|].
  destruct (H s' Hc) as [[_ Hg]|Hmis]; [|exact Hmis].
  rewrite Hg in Hlost. discriminate Hlost.
Defined.

(** ** A round in progress *)

Lemma startNextRound_Blocked s s' :
  startNextRound s = Blocked s' ->
  0 <= index (g_GameState s) < SEQUENCE_CAPACITY
  /\ g_GameState s' = g_GameState (after_addColor s).
Proof.
  unfold startNextRound. unfold bind at 1. rewrite delay_emit.
  set (s0 := emit [EvDelay 250] s).
  unfold bind at 1. intros H.
  destruct (addColor s0) as [[] s1|s1|] eqn:Ha; try discriminate.
  - apply addColor_Ret in Ha as [Hb ->]. split; [exact Hb|].
    change (g_GameState (after_addColor s)) with (g_GameState (after_addColor s0)).
    set (s1 := after_addColor s0) in *.
    unfold bind at 1 in H.
    destruct (displaySequence s1) as [[] s2|s2|] eqn:Hd; try discriminate.
    + assert (Hg2 : g_GameState s2 = g_GameState s1)
        by (apply (displaySequence_same_game s1 s2); rewrite Hd; reflexivity).
      unfold bind at 1 in H. rewrite delay_emit in H.
      apply checkInputs_from_Blocked in H. rewrite H. exact Hg2.
    + injection H as <-.
      apply (displaySequence_same_game s1 s2). rewrite Hd. reflexivity.
  - rewrite addColor_eq in Ha.
    destruct ((0 <=? _) && _) in Ha; discriminate.
Qed.

(** X10.  The sketch waits for the player only inside a round, after the
    sequence has been extended and before anything is decided: if an
    iteration of [loop] is still waiting for an input, the game was not lost
    when it began and is not lost yet, [index] is one more than it was, and
    the game state is the one [addColor] made. *)
Theorem loop_waiting :
  forall s s' : State,
    loop s = Blocked s' ->
    has_lost (g_GameState s) = false
    /\ has_lost (g_GameState s') = false
    /\ g_GameState s' = g_GameState (after_addColor s)
    /\ index (g_GameState s') = index (g_GameState s) + 1.
Proof.
  intros s s' H. destruct (has_lost (g_GameState s)) eqn:E.
  - rewrite (loop_lost _ E) in H. discriminate.
  - rewrite (loop_playing _ E) in H.
    apply startNextRound_Blocked in H as [Hb Hg].
    split; [reflexivity|]. rewrite Hg. split; [exact E|]. split; [reflexivity|].
    apply index_after_addColor, Hb.
Qed.

(** The player has pressed Red and is holding it down. *)
Lemma loop_waiting_witness :
  let s := initial_State (replicate 6 (only RED)) (fun _ => 0%N) in
  exists s',
    loop s = Blocked s'
    /\ has_lost (g_GameState s) = false
    /\ has_lost (g_GameState s') = false
    /\ g_GameState s' = g_GameState (after_addColor s)
    /\ index (g_GameState s') = index (g_GameState s) + 1.
Proof.
  intros s. eexists. split; [vm_compute; reflexivity|].
  apply (loop_waiting s). vm_compute. reflexivity.
Defined.

(** ** Presses and inputs *)

Lemma length_presses cs : length (presses cs) = (5 * length cs)%nat.
Proof.
  induction cs as [|c cs IH]; [reflexivity|].
  change (presses (c :: cs)) with (press c ++ presses cs).
  rewrite length_app, IH. simpl. lia.
Qed.

(** X11.  Presses are read back as they were made.  On a script that
    starts with one clean press for each colour of a list of playable
    colours, reading as many inputs returns that list, uses exactly those
    presses (five reads each) and leaves the game state and the generator
    alone. *)
Theorem readInputs_of_presses :
  forall (cs : list Color) (s : State) (rest : list Lines),
    Forall playable cs ->
    pin_tape (world s) = presses cs ++ rest ->
    exists s',
      readInputs (length cs) s = Ret cs s'
      /\ pin_tape (world s') = rest
      /\ length (presses cs) = (5 * length cs)%nat
      /\ g_GameState s' = g_GameState s
      /\ rng_calls (world s') = rng_calls (world s).
Proof.
  intros cs [g b [tape r n tr]] rest Hcs Htape. simpl in Htape. subst tape.
  destruct (readInputs_presses cs Hcs g b rest r n tr) as (b' & tr' & H).
  eexists. split; [exact H|]. simpl. split; [reflexivity|]. split; [|auto].
  apply length_presses.
Qed.

Lemma readInputs_of_presses_witness :
  let s := initial_State (presses [BLUE; BLUE; YELLOW] ++ [idle]) (fun _ => 0%N) in
  exists s',
    readInputs 3 s = Ret [BLUE; BLUE; YELLOW] s'
    /\ pin_tape (world s') = [idle]
    /\ length (presses [BLUE; BLUE; YELLOW]) = (5 * 3)%nat
    /\ g_GameState s' = g_GameState s
    /\ rng_calls (world s') = rng_calls (world s).
Proof.
  intros s. apply (readInputs_of_presses [BLUE; BLUE; YELLOW] s [idle]).
  - repeat constructor; discriminate.
  - reflexivity.
Defined.

Lemma length_colors r j : length (colors r j) = j.
Proof. unfold colors. rewrite length_map, length_seq. reflexivity. Qed.

Lemma length_perfect_tape r (m : nat) : forall j : nat,
  (2 * length (perfect_tape r j m) = 5 * m * (2 * j + m + 1))%nat.
Proof.
  induction m as [|m IH]; intros j; [reflexivity|].
  rewrite perfect_tape_S, length_app, length_presses, length_colors.
  specialize (IH (S j)). nia.
Qed.

(** X12.  The game can be played to the end of the array.  For every
    sequence of generator values and every [n] up to 25, the player who
    repeats the sequence without fault in each round wins [n] rounds: the
    iterations return, the game is not lost, [index] is [n], the sequence
    holds the colours of the first [n] draws and the script is used up to
    the last press.  That takes [n * (n + 1) / 2] presses, five reads
    each. *)
Theorem faultless_player_wins :
  forall (r : nat -> N) (n : nat) (rest : list Lines),
    (n <= 25)%nat ->
    exists s',
      loops n (initial_State (perfect_tape r 0 n ++ rest) r) = Ret tt s'
      /\ has_lost (g_GameState s') = false
      /\ index (g_GameState s') = Z.of_nat n
      /\ live (g_GameState s') = colors r n
      /\ pin_tape (world s') = rest
      /\ (2 * length (perfect_tape r 0 n) = 5 * (n * (n + 1)))%nat.
Proof.
  intros r n rest Hn.
  destruct (rounds_can_be_won r n rest Hn) as (s' & H & Hw & Hi & Hl & Ht).
  exists s'. repeat split; try assumption.
  rewrite length_perfect_tape. lia.
Qed.

Lemma faultless_player_wins_witness :
  exists s',
    loops 3 (initial_State (perfect_tape (fun i => N.of_nat (3 * i)) 0 3 ++ [idle])
                           (fun i => N.of_nat (3 * i))) = Ret tt s'
    /\ has_lost (g_GameState s') = false
    /\ index (g_GameState s') = Z.of_nat 3
    /\ live (g_GameState s') = colors (fun i => N.of_nat (3 * i)) 3
    /\ pin_tape (world s') = [idle]
    /\ (2 * length (perfect_tape (fun i => N.of_nat (3 * i)) 0 3) = 5 * (3 * (3 + 1)))%nat.
Proof.
  apply (faultless_player_wins (fun i => N.of_nat (3 * i)) 3 [idle]). lia.
Defined.

(** ** The colours come from the generator alone *)

Lemma same_draws_refl s : same_draws s s.
Proof. split; reflexivity. Qed.

Lemma same_draws_trans s1 s2 s3 : same_draws s1 s2 -> same_draws s2 s3 -> same_draws s1 s3.
Proof. unfold same_draws. intros [E1 E2] [F1 F2]. split; congruence. Qed.

Ltac prim_draws :=
  let s := fresh "s" in
  let s' := fresh "s'" in
  let H := fresh "H" in
  intros s s' H;
  cbv [digitalWrite delay digitalRead get_GameState put_GameState
       get_buttons put_buttons read_sequence set_has_lost bind] in H;
  repeat match type of H with
         | context [match ?x with _ => _ end] => destruct x eqn:?
         end;
  simpl in H; inversion H; subst; split; reflexivity.

Lemma digitalWrite_same_draws pin v : preserves same_draws (digitalWrite pin v).
Proof. prim_draws. Qed.

Lemma delay_same_draws ms : preserves same_draws (delay ms).
Proof. prim_draws. Qed.

Lemma digitalRead_same_draws pin : preserves same_draws (digitalRead pin).
Proof. prim_draws. Qed.

Lemma get_buttons_same_draws : preserves same_draws get_buttons.
Proof. prim_draws. Qed.

Lemma put_buttons_same_draws b : preserves same_draws (put_buttons b).
Proof. prim_draws. Qed.

Lemma get_GameState_same_draws : preserves same_draws get_GameState.
Proof. prim_draws. Qed.

Lemma read_sequence_same_draws i : preserves same_draws (read_sequence i).
Proof. prim_draws. Qed.

Lemma set_has_lost_same_draws b : preserves same_draws (set_has_lost b).
Proof. prim_draws. Qed.

#[global] Hint Resolve digitalWrite_same_draws delay_same_draws digitalRead_same_draws
  get_buttons_same_draws put_buttons_same_draws get_GameState_same_draws
  read_sequence_same_draws set_has_lost_same_draws : frame.

Ltac keeps_draws :=
  repeat match goal with
         | |- preserves _ (ret _) => apply (preserves_ret _ same_draws_refl)
         | |- preserves _ (set_has_lost _) => apply set_has_lost_same_draws
         | |- preserves _ (bind _ _) =>
             apply (preserves_bind _ same_draws_trans); [|intros ?]
         | |- preserves _ (poll _ _) =>
             apply (preserves_poll _ same_draws_refl same_draws_trans)
         | |- preserves _ (if _ then _ else _) => apply preserves_if
         | |- preserves _ (let _ := _ in _) => cbv zeta
         | |- _ => solve [auto with frame]
         end.

Lemma updateButtonStates_same_draws : preserves same_draws updateButtonStates.
Proof. unfold updateButtonStates. keeps_draws. Qed.

#[global] Hint Resolve updateButtonStates_same_draws : frame.

Lemma buttonIsPressed_same_draws : preserves same_draws buttonIsPressed.
Proof. unfold buttonIsPressed. keeps_draws. Qed.

Lemma getButtonPressed_same_draws : preserves same_draws getButtonPressed.
Proof. unfold getButtonPressed. keeps_draws. Qed.

#[global] Hint Resolve buttonIsPressed_same_draws getButtonPressed_same_draws : frame.

Lemma getButtonColor_same_draws : preserves same_draws getButtonColor.
Proof. unfold getButtonColor. keeps_draws. Qed.

Lemma displayColor_same_draws c : preserves same_draws (displayColor c).
Proof. unfold displayColor. keeps_draws. Qed.

#[global] Hint Resolve getButtonColor_same_draws displayColor_same_draws : frame.

Lemma displaySequence_from_same_draws n :
  forall i, preserves same_draws (displaySequence_from n i).
Proof. induction n as [|n IH]; intros i; cbn [displaySequence_from]; keeps_draws. Qed.

Lemma checkInputs_from_same_draws n :
  forall j, preserves same_draws (checkInputs_from n j).
Proof. induction n as [|n IH]; intros j; cbn [checkInputs_from]; keeps_draws. Qed.

Lemma after_input_same_draws :
  preserves same_draws (displaySequence ;; delay 1500 ;; checkInputs).
Proof.
  apply (preserves_bind _ same_draws_trans);
    [apply displaySequence_from_same_draws|intros _].
  apply (preserves_bind _ same_draws_trans); [apply delay_same_draws|intros _].
  apply checkInputs_from_same_draws.
Qed.

Lemma startNextRound_draws s s' :
  final_state (startNextRound s) = Some s' ->
  same_draws (after_addColor (emit [EvDelay 250] s)) s'.
Proof.
  unfold startNextRound. unfold bind at 1. rewrite delay_emit.
  intros H. apply bind_final in H as [([] & s1 & Ha & H)|Hb].
  - apply addColor_Ret in Ha as [_ ->]. apply (after_input_same_draws _ _ H).
  - rewrite addColor_eq in Hb.
    destruct ((0 <=? _) && _) in Hb; discriminate.
Qed.

Lemma colors_S r j : colors r (S j) = colors r j ++ [drawn_color (r j)].
Proof. unfold colors. rewrite seq_S, map_app. reflexivity. Qed.

Lemma loop_follows_generator s s' :
  Inv (g_GameState s) ->
  follows_generator s ->
  final_state (loop s) = Some s' ->
  follows_generator s' /\ rng (world s') = rng (world s).
Proof.
  intros HI [Hn Hl] H. pose proof HI as [[Hlen _] _].
  pose proof H as H0. apply loop_final in H as [[E ->]|(E & Hb & (Hs & Hi & _))].
  - split; [split; assumption|reflexivity].
  - rewrite (loop_playing _ E) in H0. apply startNextRound_draws in H0 as [Hr Hc].
    simpl in Hr, Hc. split; [|exact Hr]. unfold follows_generator.
    assert (Hlive : live (g_GameState s') = live (g_GameState (after_addColor s))).
    { unfold live. rewrite Hs, Hi. reflexivity. }
    rewrite Hlive, Hi, Hr, Hc, colors_S, <- Hl.
    split.
    + rewrite (index_after_addColor (emit [EvDelay 250] s)) by exact Hb. simpl. lia.
    + apply live_after_addColor; assumption.
Qed.

Lemma loops_follow_generator (n : nat) : forall s s',
  Inv (g_GameState s) ->
  follows_generator s ->
  final_state (loops n s) = Some s' ->
  follows_generator s' /\ rng (world s') = rng (world s).
Proof.
  induction n as [|n IH]; intros s s' HI Hf H.
  - injection H as <-. auto.
  - simpl in H. apply bind_final in H as [([] & s1 & H1 & H)|Hb].
    + assert (F : final_state (loop s) = Some s1) by (rewrite H1; reflexivity).
      destruct (loop_follows_generator _ _ HI Hf F) as [Hf1 Hr1].
      destruct (IH s1 s' (loop_Inv _ _ F HI) Hf1 H) as [Hf' Hr'].
      split; [exact Hf'|congruence].
    + apply (loop_follows_generator s s' HI Hf). rewrite Hb. reflexivity.
Qed.

(** X13.  The player has no influence on the colours.  After any number of
    iterations of [loop] from power-on, returned or waiting, on any script
    of the button lines, the colour at each position [i] of the sequence is
    the colour of the [i]-th value of the generator; two games on the same
    generator values that have reached the same [index] hold the same
    colours, however they were played. *)
Theorem sequence_follows_generator :
  (forall (n : nat) (tape : list Lines) (r : nat -> N) (s' : State),
     final_state (loops n (initial_State tape r)) = Some s' ->
     live (g_GameState s') = colors r (Z.to_nat (index (g_GameState s')))
     /\ (forall i : nat,
           Z.of_nat i < index (g_GameState s') ->
           sequence (g_GameState s') !! i = Some (drawn_color (r i)))
     /\ rng_calls (world s') = Z.to_nat (index (g_GameState s')))
  /\ (forall (n1 n2 : nat) (tape1 tape2 : list Lines) (r : nat -> N) (s1 s2 : State),
        final_state (loops n1 (initial_State tape1 r)) = Some s1 ->
        final_state (loops n2 (initial_State tape2 r)) = Some s2 ->
        index (g_GameState s1) = index (g_GameState s2) ->
        live (g_GameState s1) = live (g_GameState s2)).
Proof.
  assert (Hmain : forall n tape r s',
             final_state (loops n (initial_State tape r)) = Some s' ->
             live (g_GameState s') = colors r (Z.to_nat (index (g_GameState s')))
             /\ rng_calls (world s') = Z.to_nat (index (g_GameState s'))).
  { intros n tape r s' H.
    destruct (loops_follow_generator n (initial_State tape r) s') as [[Hn Hl] Hr];
      [apply Inv_initial|split; reflexivity|exact H|].
    simpl in Hr. rewrite Hr in Hl. rewrite <- Hn, Nat2Z.id. auto. }
  split.
  - intros n tape r s' H. destruct (Hmain _ _ _ _ H) as [Hl Hc].
    split; [exact Hl|]. split; [|exact Hc].
    intros i Hi.
    assert (Hli : live (g_GameState s') !! i = Some (drawn_color (r i))).
    { rewrite Hl. unfold colors. rewrite list_lookup_fmap.
      rewrite lookup_seq_lt by lia. reflexivity. }
    unfold live in Hli. rewrite lookup_take_lt in Hli by lia. exact Hli.
  - intros n1 n2 tape1 tape2 r s1 s2 H1 H2 Hidx.
    destruct (Hmain _ _ _ _ H1) as [-> _]. destruct (Hmain _ _ _ _ H2) as [-> _].
    rewrite Hidx. reflexivity.
Qed.

(** One game lost in its second round, one won twice: the same colours. *)
Lemma sequence_follows_generator_witness :
  let r := fun i : nat => N.of_nat (2 * i + 1) in
  exists s1 s2,
    loops 2 (initial_State (presses [BLUE; RED]) r) = Ret tt s1
    /\ loops 2 (initial_State (presses [BLUE; BLUE; YELLOW]) r) = Ret tt s2
    /\ has_lost (g_GameState s1) = true
    /\ has_lost (g_GameState s2) = false
    /\ live (g_GameState s1) = live (g_GameState s2).
Proof.
  intros r. eexists. eexists.
  split; [vm_compute; reflexivity|]. split; [vm_compute; reflexivity|].
  split; [reflexivity|]. split; [reflexivity|].
  destruct sequence_follows_generator as [_ H].
  apply (H 2%nat 2%nat (presses [BLUE; RED]) (presses [BLUE; BLUE; YELLOW]) r);
    vm_compute; reflexivity.
Defined.

(** ** Playback in time and on the pins *)

Lemma duration_playback cs : duration (playback cs) = 750 * Z.of_nat (length cs).
Proof.
  induction cs as [|c cs IH]; [reflexivity|].
  rewrite playback_cons, duration_app, IH. simpl length. simpl duration. lia.
Qed.

(** X14.  Playback blocks for 750 ms for each colour.  In a state of the C
    struct, [displaySequence] returns after spending exactly [750 * index]
    ms in [delay] (500 ms lit and 250 ms dark for each colour), without a
    single read of the buttons. *)
Theorem displaySequence_duration :
  forall s : State,
    wf_GameState (g_GameState s) ->
    exists s' evs,
      displaySequence s = Ret tt s'
      /\ trace (world s') = trace (world s) ++ evs
      /\ duration evs = 750 * index (g_GameState s)
      /\ pin_tape (world s') = pin_tape (world s).
Proof.
  intros s Hwf. pose proof Hwf as [Hlen Hcap]. unfold SEQUENCE_CAPACITY in Hcap.
  exists (emit (playback (live (g_GameState s))) s), (playback (live (g_GameState s))).
  split; [|split; [reflexivity|split; [|reflexivity]]].
  - unfold displaySequence, live.
    rewrite (displaySequence_from_emit (Z.to_nat (index (g_GameState s))));
      [reflexivity|lia|lia|lia|exact Hwf].
  - rewrite duration_playback. unfold live. rewrite length_take, Hlen. lia.
Qed.

Lemma displaySequence_duration_witness :
  let s := mkState (mkGameState false ([GREEN; RED; RED] ++ replicate 22 NO_COLOR) 3)
                   initial_ButtonStates (mkWorld [idle] (fun _ => 0%N) 3 []) in
  exists s' evs,
    displaySequence s = Ret tt s'
    /\ trace (world s') = trace (world s) ++ evs
    /\ duration evs = 750 * 3
    /\ pin_tape (world s') = [idle].
Proof.
  intros s. apply (displaySequence_duration s).
  split; [reflexivity|]. unfold SEQUENCE_CAPACITY. simpl. lia.
Defined.

(** X15.  The switch of [displayColor] agrees with [colorToLED].  For
    every colour, [displayColor] returns after one 500 ms pulse on the pin
    [colorToLED] gives for it; that pin is low afterwards and every other
    pin is at the level it had.  For a playable colour the pin is an LED;
    for [NO_COLOR] it is pin 0, so that no LED changes. *)
Theorem displayColor_pulse :
  forall (c : Color) (s : State),
    exists s',
      displayColor c s = Ret tt s'
      /\ trace (world s') = trace (world s) ++ pulse c
      /\ duration (pulse c) = 500
      /\ pin_level (trace (world s')) (colorToLED c) = LOW
      /\ (forall pin, pin <> colorToLED c ->
            pin_level (trace (world s')) pin = pin_level (trace (world s)) pin)
      /\ (c <> NO_COLOR -> In (colorToLED c) LED_pins)
      /\ (c = NO_COLOR ->
            colorToLED c = 0
            /\ forall pin, In pin LED_pins ->
                 pin_level (trace (world s')) pin = pin_level (trace (world s)) pin).
Proof.
  intros c s. exists (emit (pulse c) s).
  split; [apply displayColor_emit|]. split; [reflexivity|]. split; [reflexivity|].
  assert (Hother : forall pin, pin <> colorToLED c ->
            pin_level (trace (world (emit (pulse c) s))) pin
            = pin_level (trace (world s)) pin).
  { intros pin Hne. simpl trace. rewrite pin_level_app. unfold pulse. simpl.
    destruct (Z.eqb_spec (colorToLED c) pin); [congruence|reflexivity]. }
  split; [|split; [exact Hother|split]].
  - simpl trace. rewrite pin_level_app. unfold pulse. simpl.
    rewrite Z.eqb_refl. reflexivity.
  - apply colorToLED_playable.
  - intros ->. split; [reflexivity|]. intros pin Hpin. apply Hother.
    simpl in *. unfold RED_LED, BLUE_LED, GREEN_LED, YELLOW_LED in Hpin. lia.
Qed.

Lemma displayColor_pulse_witness :
  let s := emit [EvWrite RED_LED HIGH] (initial_State [] (fun _ => 0%N)) in
  exists s',
    displayColor NO_COLOR s = Ret tt s'
    /\ trace (world s') = trace (world s) ++ pulse NO_COLOR
    /\ pin_level (trace (world s')) RED_LED = HIGH
    /\ pin_level (trace (world s')) 0 = LOW.
Proof.
  intros s.
  destruct (displayColor_pulse NO_COLOR s) as (s' & H & Ht & _ & Hlow & _ & _ & Hno).
  exists s'. split; [exact H|]. split; [exact Ht|].
  destruct (Hno eq_refl) as [_ Hleds].
  split; [|exact Hlow].
  rewrite (Hleds RED_LED); [reflexivity|simpl; auto].
Defined.

(** ** The order of a round *)

Lemma extends_refl s : extends s s.
Proof. exists []. rewrite app_nil_r. reflexivity. Qed.

Lemma extends_trans s1 s2 s3 : extends s1 s2 -> extends s2 s3 -> extends s1 s3.
Proof.
  intros [e1 H1] [e2 H2]. exists (e1 ++ e2). rewrite H2, H1, app_assoc. reflexivity.
Qed.

Lemma extends_same_trace s s' : trace (world s') = trace (world s) -> extends s s'.
Proof. intros H. exists []. rewrite app_nil_r. exact H. Qed.

Lemma digitalWrite_extends pin v : preserves extends (digitalWrite pin v).
Proof. intros s s' [= <-]. exists [EvWrite pin v]. reflexivity. Qed.

Lemma delay_extends ms : preserves extends (delay ms).
Proof. intros s s' [= <-]. exists [EvDelay ms]. reflexivity. Qed.

Lemma digitalRead_extends pin : preserves extends (digitalRead pin).
Proof.
  intros s s' H. unfold digitalRead in H.
  destruct (pin_tape (world s)); simpl in H; injection H as <-;
    apply extends_same_trace; reflexivity.
Qed.

Lemma get_buttons_extends : preserves extends get_buttons.
Proof. intros s s' [= <-]. apply extends_refl. Qed.

Lemma put_buttons_extends b : preserves extends (put_buttons b).
Proof. intros s s' [= <-]. apply extends_same_trace. reflexivity. Qed.

Lemma get_GameState_extends : preserves extends get_GameState.
Proof. intros s s' [= <-]. apply extends_refl. Qed.

Lemma read_sequence_extends i : preserves extends (read_sequence i).
Proof.
  intros s s' H. unfold read_sequence in H.
  destruct ((0 <=? i) && (i <? SEQUENCE_CAPACITY)); [|discriminate].
  injection H as <-. apply extends_refl.
Qed.

Lemma set_has_lost_extends b : preserves extends (set_has_lost b).
Proof.
  intros s s' H. injection H as H. subst s'. apply extends_same_trace. reflexivity.
Qed.

#[global] Hint Resolve digitalWrite_extends delay_extends digitalRead_extends
  get_buttons_extends put_buttons_extends get_GameState_extends
  read_sequence_extends set_has_lost_extends : frame.

Ltac grows :=
  repeat match goal with
         | |- preserves _ (ret _) => apply (preserves_ret _ extends_refl)
         | |- preserves _ (set_has_lost _) => apply set_has_lost_extends
         | |- preserves _ (bind _ _) =>
             apply (preserves_bind _ extends_trans); [|intros ?]
         | |- preserves _ (poll _ _) =>
             apply (preserves_poll _ extends_refl extends_trans)
         | |- preserves _ (if _ then _ else _) => apply preserves_if
         | |- preserves _ (let _ := _ in _) => cbv zeta
         | |- _ => solve [auto with frame]
         end.

Lemma updateButtonStates_extends : preserves extends updateButtonStates.
Proof. unfold updateButtonStates. grows. Qed.

#[global] Hint Resolve updateButtonStates_extends : frame.

Lemma buttonIsPressed_extends : preserves extends buttonIsPressed.
Proof. unfold buttonIsPressed. grows. Qed.

Lemma getButtonPressed_extends : preserves extends getButtonPressed.
Proof. unfold getButtonPressed. grows. Qed.

#[global] Hint Resolve buttonIsPressed_extends getButtonPressed_extends : frame.

Lemma getButtonColor_extends : preserves extends getButtonColor.
Proof. unfold getButtonColor. grows. Qed.

#[global] Hint Resolve getButtonColor_extends : frame.

Lemma checkInputs_from_extends n : forall j, preserves extends (checkInputs_from n j).
Proof. induction n as [|n IH]; intros j; cbn [checkInputs_from]; grows. Qed.

(** X16.  A round plays the whole sequence back before it reads anything.
    Wherever an iteration of [startNextRound] has got to, returned or
    waiting for an input, its log begins with the 250 ms delay, the pulses of
    the extended sequence, new colour included, and the 1500 ms delay; what
    follows is the feedback of the inputs. *)
Theorem round_plays_back_first :
  forall s s' : State,
    Inv (g_GameState s) ->
    final_state (startNextRound s) = Some s' ->
    exists evs,
      trace (world s')
      = trace (world s) ++ [EvDelay 250] ++ playback (live (g_GameState s'))
          ++ [EvDelay 1500] ++ evs
      /\ length (live (g_GameState s')) = S (length (live (g_GameState s))).
Proof.
  intros s s' HI H. pose proof HI as [[Hlen Hcap] _].
  pose proof (startNextRound_final _ _ H) as [Hb (Hs & Hi & _)].
  assert (Hlive : live (g_GameState s') = live (g_GameState (after_addColor s))).
  { unfold live. rewrite Hs, Hi. reflexivity. }
  unfold startNextRound in H. unfold bind at 1 in H. rewrite delay_emit in H.
  set (s0 := emit [EvDelay 250] s) in *.
  unfold bind at 1 in H. rewrite (addColor_in_bounds s0 Hb) in H.
  set (s1 := after_addColor s0) in *.
  assert (HI1 : Inv (g_GameState s1)) by (apply Inv_after_addColor; assumption).
  destruct HI1 as [Hwf1 _]. pose proof Hwf1 as [Hlen1 Hcap1].
  unfold SEQUENCE_CAPACITY in Hcap1.
  unfold bind at 1, displaySequence in H.
  rewrite (displaySequence_from_emit (Z.to_nat (index (g_GameState s1)))) in H;
    [|lia|lia|lia|exact Hwf1].
  unfold bind at 1 in H. rewrite delay_emit, emit_emit in H.
  apply (checkInputs_from_extends 256 0) in H as [evs Hevs].
  exists evs. split.
  - rewrite Hevs, Hlive. simpl. rewrite <- !app_assoc. reflexivity.
  - rewrite Hlive, (live_after_addColor s) by assumption.
    rewrite length_app. simpl. lia.
Qed.

Lemma round_plays_back_first_witness :
  let s := initial_State (presses [RED] ++ [idle]) (fun _ => 0%N) in
  exists s' evs,
    startNextRound s = Ret tt s'
    /\ trace (world s')
       = trace (world s) ++ [EvDelay 250] ++ playback (live (g_GameState s'))
           ++ [EvDelay 1500] ++ evs
    /\ length (live (g_GameState s')) = S (length (live (g_GameState s))).
Proof.
  intros s.
  assert (H : exists s', startNextRound s = Ret tt s') by (eexists; vm_compute; reflexivity).
  destruct H as (s' & H).
  destruct (round_plays_back_first s s') as (evs & Ht & Hl);
    [apply Inv_initial|rewrite H; reflexivity|].
  exists s', evs. repeat split; assumption.
Defined.
